(** * makei/build.py: the build environment of the makei driver

    A shallow embedding of [BuildEnv] (src/makei/build.py) and the
    properties of its target-graph walk, variable resolution, include-path
    rendering, output classification and temporary-file handling. *)

From Stdlib Require Import Ascii String.
From stdpp Require Import gmap strings list fin_maps relations sorting.

Local Open Scope string_scope.

(** ** pathlib *)

(** A [Path] is the tuple [Path.parts]: an absolute path starts with the
    part ["/"], and [Path('.')] has no parts. *)
Abbreviation Path := (list string).

Module PathLib.

(** The segments of [s] between slashes; [cur] is the segment read so far. *)
Fixpoint split_slash (s cur : string) : list string :=
  match s with
  | EmptyString => [cur]
  | String c s' =>
      if Ascii.eqb c "/" then cur :: split_slash s' ""
      else split_slash s' (cur ++ String c "")
  end.

Definition is_real_part (x : string) : bool :=
  negb (String.eqb x "") && negb (String.eqb x ".").

(** Parsing a string into parts drops empty segments and ["."]. *)
Definition parts_of (s : string) : list string :=
  List.filter is_real_part (split_slash s "").

Definition is_absolute (s : string) : bool :=
  match s with
  | String c _ => Ascii.eqb c "/"
  | EmptyString => false
  end.

(** [p / s] for a string [s]: an absolute [s] replaces [p]. *)
Definition joinpath (p : Path) (s : string) : Path :=
  if is_absolute s then "/" :: parts_of s else p ++ parts_of s.

(** [p.name]: the last part, empty for [Path('.')] and for the root. *)
Definition name (p : Path) : string :=
  match List.rev p with
  | [] => ""
  | x :: _ => if String.eqb x "/" then "" else x
  end.

(** [p.parents[0]] of a path with at least one part. *)
Definition parent (p : Path) : Path := removelast p.

(** [str(p)]. *)
Fixpoint join_parts (l : list string) : string :=
  match l with
  | [] => ""
  | [x] => x
  | x :: l' => x ++ "/" ++ join_parts l'
  end.

Definition str (p : Path) : string :=
  match p with
  | [] => "."
  | x :: l => if String.eqb x "/" then "/" ++ join_parts l else join_parts p
  end.

End PathLib.

Notation "p // s" := (PathLib.joinpath p s) (at level 40, left associativity).

(** ** Strings *)

Module Str.

(** [sep.join(l)] *)
Fixpoint join (sep : string) (l : list string) : string :=
  match l with
  | [] => ""
  | [x] => x
  | x :: l' => x ++ sep ++ join sep l'
  end.

(** [c.upper()] on an ASCII letter. *)
Definition upper_ascii (c : ascii) : ascii :=
  let n := nat_of_ascii c in
  if Nat.leb 97 n && Nat.leb n 122 then ascii_of_nat (n - 32) else c.

(** [s.upper()], on ASCII text. *)
Fixpoint upper (s : string) : string :=
  match s with
  | EmptyString => EmptyString
  | String c s' => String (upper_ascii c) (upper s')
  end.

(** [s.replace(c, new)] for a pattern [c] of one character. *)
Fixpoint replace_char (c : ascii) (new : string) (s : string) : string :=
  match s with
  | EmptyString => EmptyString
  | String a s' =>
      if Ascii.eqb a c then new ++ replace_char c new s'
      else String a (replace_char c new s')
  end.

End Str.

(** ** Text read from the executor *)

(** A Python [str] as the sequence of its code points.  The output of the
    executor reaches the handler as [bytes], here a [string] with one
    character per byte, and is decoded before it is searched and split. *)
Abbreviation ustr := (list N).

Module UStr.

(** The [str] of an ASCII literal of the source. *)
Fixpoint of_string (s : string) : ustr :=
  match s with
  | EmptyString => []
  | String c s' => N_of_ascii c :: of_string s'
  end.

(** A continuation byte: 0x80 to 0xBF. *)
Definition continuation (b : N) : bool := (128 <=? b)%N && (b <=? 191)%N.

(** The second byte after the lead byte [b0] of a three-byte sequence:
    0xE0 wants 0xA0 to 0xBF (no overlong form), 0xED wants 0x80 to 0x9F (no
    surrogate). *)
Definition second_of_three (b0 b1 : N) : bool :=
  if (b0 =? 224)%N then (160 <=? b1)%N && (b1 <=? 191)%N
  else if (b0 =? 237)%N then (128 <=? b1)%N && (b1 <=? 159)%N
  else continuation b1.

(** The second byte after the lead byte [b0] of a four-byte sequence:
    0xF0 wants 0x90 to 0xBF, 0xF4 wants 0x80 to 0x8F (nothing above
    U+10FFFF). *)
Definition second_of_four (b0 b1 : N) : bool :=
  if (b0 =? 240)%N then (144 <=? b1)%N && (b1 <=? 191)%N
  else if (b0 =? 244)%N then (128 <=? b1)%N && (b1 <=? 143)%N
  else continuation b1.

(** [b.decode(sys.getdefaultencoding())]: the default encoding of Python 3
    is UTF-8 and the error handler is [strict]; [None] stands for
    [UnicodeDecodeError]. *)
Fixpoint decode (b : string) : option ustr :=
  match b with
  | EmptyString => Some []
  | String c0 r0 =>
      let b0 := N_of_ascii c0 in
      if (b0 <=? 127)%N then cons b0 <$> decode r0
      else if (194 <=? b0)%N && (b0 <=? 223)%N then
        match r0 with
        | String c1 r1 =>
            let b1 := N_of_ascii c1 in
            if continuation b1
            then cons ((b0 - 192) * 64 + (b1 - 128))%N <$> decode r1
            else None
        | _ => None
        end
      else if (224 <=? b0)%N && (b0 <=? 239)%N then
        match r0 with
        | String c1 (String c2 r2) =>
            let b1 := N_of_ascii c1 in
            let b2 := N_of_ascii c2 in
            if second_of_three b0 b1 && continuation b2
            then cons (((b0 - 224) * 64 + (b1 - 128)) * 64 + (b2 - 128))%N
                   <$> decode r2
            else None
        | _ => None
        end
      else if (240 <=? b0)%N && (b0 <=? 244)%N then
        match r0 with
        | String c1 (String c2 (String c3 r3)) =>
            let b1 := N_of_ascii c1 in
            let b2 := N_of_ascii c2 in
            let b3 := N_of_ascii c3 in
            if second_of_four b0 b1 && continuation b2 && continuation b3
            then cons ((((b0 - 240) * 64 + (b1 - 128)) * 64 + (b2 - 128)) * 64
                       + (b3 - 128))%N
                   <$> decode r3
            else None
        | _ => None
        end
      else None
  end.

(** [s.startswith(m)] *)
Fixpoint prefix (m s : ustr) : bool :=
  match m, s with
  | [], _ => true
  | _ :: _, [] => false
  | a :: m', b :: s' => (a =? b)%N && prefix m' s'
  end.

(** [sub in s] *)
Fixpoint contains (sub s : ustr) : bool :=
  prefix sub s ||
  match s with
  | [] => false
  | _ :: s' => contains sub s'
  end.

(** The white space at which [str.split()] cuts: tab to carriage return,
    the separators 0x1c to 0x1f, the space, U+0085, U+00A0, U+1680, U+2000
    to U+200A, U+2028, U+2029, U+202F, U+205F and U+3000. *)
Definition isspace (c : N) : bool :=
  ((9 <=? c)%N && (c <=? 13)%N) || ((28 <=? c)%N && (c <=? 32)%N)
  || (c =? 133)%N || (c =? 160)%N || (c =? 5760)%N
  || ((8192 <=? c)%N && (c <=? 8202)%N)
  || (c =? 8232)%N || (c =? 8233)%N || (c =? 8239)%N || (c =? 8287)%N
  || (c =? 12288)%N.
Arguments isspace : simpl never.

(** [s.split()]: the maximal runs of characters that are not white space;
    [cur] is the run read so far. *)
Fixpoint split_ws (s cur : ustr) : list ustr :=
  match s with
  | [] => match cur with [] => [] | _ => [cur] end
  | c :: s' =>
      if isspace c
      then match cur with [] => split_ws s' [] | _ => cur :: split_ws s' [] end
      else split_ws s' (cur ++ [c])%list
  end.

Definition split (s : ustr) : list ustr := split_ws s [].

(** [s.split(c)[0]]: the text before the first [c]. *)
Fixpoint before (c : N) (s : ustr) : ustr :=
  match s with
  | [] => []
  | a :: s' => if (a =? c)%N then [] else a :: before c s'
  end.

(** Predicates on the text of a line, for stating what a line looks like. *)

(** A word: not empty and free of white space. *)
Definition is_word (s : ustr) : bool :=
  match s with
  | [] => false
  | _ => forallb (fun c => negb (isspace c)) s
  end.



End UStr.

(** ** Exceptions *)

Inductive exn :=
| KeyError (k : string)
| IndexError
| FileNotFoundError (p : Path)
| CommandError
| UnicodeDecodeError
| UnboundLocalError.

Inductive result (A : Type) :=
| Ok (a : A)
| Raise (e : exn).
Arguments Ok {A} a.
Arguments Raise {A} e.

(** ** Rule descriptors *)

(** What [RulesMk.from_file] hands to [BuildEnv]: the three attributes the
    build reads. *)
Record RulesMk := {
  containing_dir : Path;
  subdirs : list string;
  targets : list (string * list string)
}.

(** The file system: the set of paths for which [Path.exists()] holds,
    files and directories alike. *)
Abbreviation Disk := (gset Path).

(** The paths of descriptors: those whose last part is [Rules.mk]. *)
Definition is_rules_mk (p : Path) : Prop :=
  exists d, p = (d ++ ["Rules.mk"])%list.

(** ** The target-graph walk: [BuildEnv._read_rules_mks] *)

Module Walk.
Section Walk.

(** [RulesMk.from_file] lives in makei/rules_mk.py; the walk is stated for
    any parser. *)
Variable from_file : Path -> RulesMk.
Variable disk : Disk.
Variable src_dir : Path.

(** [for src in src_list: map_to_targets[src] = target] *)
Definition record_sources (m : gmap string string) (target : string)
    (src_list : list string) : gmap string string :=
  foldl (fun m src => <[src := target]> m) m src_list.

(** [for target, src_list in rules_mk.targets: ...] *)
Definition record_targets (m : gmap string string)
    (ts : list (string * list string)) : gmap string string :=
  foldl (fun m ts => record_sources m ts.1 ts.2) m ts.

(** The body of [if rules_mk.exists():] up to the directory entry. *)
Definition record_descriptor (m : gmap string string) (rm : RulesMk)
    : gmap string string :=
  <[PathLib.name (containing_dir rm) :=
      "dir_" ++ PathLib.name (containing_dir rm)]>
    (record_targets m (targets rm)).

(** [[self.src_dir / subdir / "Rules.mk" for subdir in rules_mk.subdirs]] *)
Definition subdir_rules_mks (rm : RulesMk) : list Path :=
  map (fun subdir => src_dir // subdir // "Rules.mk") (subdirs rm).

(** The loop state.  [rules_mks] is the Python list read from its end:
    the head here is the element [pop()] returns, and [extend l] pushes
    [l] so that its last element becomes the head.  [visited] is a ghost
    log of the descriptors parsed, in order. *)
Record state := {
  rules_mks : list Path;
  map_to_targets : gmap string string;
  visited : list Path
}.

Definition init : state :=
  {| rules_mks := [src_dir // "Rules.mk"];
     map_to_targets := ∅;
     visited := [] |}.

(** One iteration of [while len(rules_mks) > 0] on a popped path. *)
Definition iteration (rules_mk : Path) (rest : list Path)
    (m : gmap string string) (v : list Path) : state :=
  if decide (rules_mk ∈ disk) then
    let rm := from_file rules_mk in
    {| rules_mks := List.rev (subdir_rules_mks rm) ++ rest;
       map_to_targets := record_descriptor m rm;
       visited := v ++ [rules_mk] |}
  else
    {| rules_mks := rest; map_to_targets := m; visited := v |}.

(** The loop; [None] when [fuel] iterations were not enough. *)
Fixpoint loop (fuel : nat) (st : state) : option state :=
  match rules_mks st with
  | [] => Some st
  | rules_mk :: rest =>
      match fuel with
      | O => None
      | S fuel' =>
          loop fuel' (iteration rules_mk rest (map_to_targets st) (visited st))
      end
  end.

Definition _read_rules_mks (fuel : nat) : option (gmap string string) :=
  map_to_targets <$> loop fuel init.

(** *** The link graph *)

Definition children (p : Path) : list Path :=
  subdir_rules_mks (from_file p).

(** [link p c]: the descriptor at [p] exists and declares a subdirectory
    whose descriptor path is [c]. *)
Definition link (p c : Path) : Prop := p ∈ disk ∧ c ∈ children p.

Definition root : Path := src_dir // "Rules.mk".

Definition reachable (p : Path) : Prop := rtc link root p.

(** [declared st q]: [q] is the path [src_dir / subdir / "Rules.mk"] of a
    subdirectory that a descriptor in the log of [st] declares. *)
Definition declared (st : state) (q : Path) : Prop :=
  exists p subdir, p ∈ visited st ∧ subdir ∈ subdirs (from_file p)
    ∧ q = src_dir // subdir // "Rules.mk".

(** The paths the walk has parsed or is still to look up are the root
    descriptor and declared paths; those of them that exist and are not on
    the stack are parsed; and only paths that exist are parsed. *)
Definition root_relative (st : state) : Prop :=
  (root ∈ disk -> root ∈ visited st ∨ root ∈ rules_mks st)
  ∧ (forall q, declared st q -> q ∈ disk -> q ∈ visited st ∨ q ∈ rules_mks st)
  ∧ (forall q, q ∈ visited st ∨ q ∈ rules_mks st -> q = root ∨ declared st q)
  ∧ (forall q, q ∈ visited st -> q ∈ disk).

(** Where an entry of the map comes from: the directory entry of the
    descriptor at [p], or one of its (target, sources) entries. *)
Definition dir_entry (p : Path) (k v : string) : Prop :=
  k = PathLib.name (containing_dir (from_file p)) ∧ v = "dir_" ++ k.

Definition file_entry (p : Path) (k v : string) : Prop :=
  exists src_list, (v, src_list) ∈ targets (from_file p) ∧ k ∈ src_list.

(** Every entry of the map of [st] comes from a descriptor in its log. *)
Definition recorded (st : state) : Prop :=
  forall k v, map_to_targets st !! k = Some v ->
  exists p, p ∈ visited st ∧ (dir_entry p k v ∨ file_entry p k v).

(** Every key a descriptor in the log of [st] writes is a key of its map. *)
Definition covered (st : state) : Prop :=
  forall p k, p ∈ visited st ->
    (k = PathLib.name (containing_dir (from_file p))
     ∨ exists t src_list, (t, src_list) ∈ targets (from_file p) ∧ k ∈ src_list) ->
    is_Some (map_to_targets st !! k).

(** The links among the reachable descriptors are acyclic: some measure
    decreases along every link between two descriptors on disk. *)
Definition ranked (rank : Path -> nat) : Prop :=
  forall p c, reachable p -> link p c -> c ∈ disk -> rank c < rank p.

(** The links among the reachable descriptors form a tree: a descriptor on
    disk is declared by one descriptor only, and only once there. *)
Definition tree_like : Prop :=
  (forall p1 p2 c, reachable p1 -> reachable p2 ->
     link p1 c -> link p2 c -> c ∈ disk -> p1 = p2)
  ∧ (forall p, reachable p -> p ∈ disk ->
       NoDup (List.filter (fun c => bool_decide (c ∈ disk)) (children p))).

(** The visit order of the walk started at [p], cut at depth [n]. *)
Fixpoint visit (n : nat) (p : Path) : list Path :=
  match n with
  | O => []
  | S n' =>
      if decide (p ∈ disk)
      then p :: flat_map (visit n') (List.rev (children p))
      else []
  end.

End Walk.
End Walk.

(** ** Variable resolution: the [dir_var_map] part of [_create_build_vars] *)

(** The [build] dictionary of an [IBMiJson], with the two keys read here. *)
Record IBMiJson := {
  tgt_ccsid : string;
  objlib : string
}.

Module Resolve.
Section Resolve.

(** [IBMiJson.from_file(path, parent)] lives in makei/ibmi_json.py; the
    resolution is stated for any such function. *)
Variable from_file : Path -> IBMiJson -> IBMiJson.

(** [subdirs.sort(key=lambda x: len(x.parts))]: a stable sort, here by
    insertion: [x] goes before the first element that is not shallower. *)
Fixpoint insert_by_depth (x : Path) (l : list Path) : list Path :=
  match l with
  | [] => [x]
  | y :: l' =>
      if Nat.leb (length x) (length y) then x :: y :: l'
      else y :: insert_by_depth x l'
  end.

Fixpoint sort_by_depth (l : list Path) : list Path :=
  match l with
  | [] => []
  | x :: l' => insert_by_depth x (sort_by_depth l')
  end.

(** [map_ibmi_json_var(path)]; [dir_var_map[...]] raises [KeyError] on a
    key that is not there. *)
Definition map_ibmi_json_var (dir_var_map : gmap Path IBMiJson) (path : Path)
    : result (gmap Path IBMiJson) :=
  if decide (path = []) then Ok dir_var_map
  else
    match dir_var_map !! PathLib.parent path with
    | Some parent_vars =>
        Ok (<[path := from_file (path // ".ibmi.json") parent_vars]> dir_var_map)
    | None => Raise (KeyError (PathLib.str (PathLib.parent path)))
    end.

(** [list(map(map_ibmi_json_var, subdirs))] *)
Fixpoint map_all (dir_var_map : gmap Path IBMiJson) (l : list Path)
    : result (gmap Path IBMiJson) :=
  match l with
  | [] => Ok dir_var_map
  | path :: l' =>
      match map_ibmi_json_var dir_var_map path with
      | Ok m => map_all m l'
      | Raise e => Raise e
      end
  end.

(** From the list of descriptor paths found by [rglob] to [dir_var_map];
    [root_vars] is [IBMiJson.from_values(tgt_ccsid, objlib)]. *)
Definition subdirs_of (rules_mk_paths : list Path) : list Path :=
  sort_by_depth (map PathLib.parent rules_mk_paths).

Definition resolve (root_vars : IBMiJson) (rules_mk_paths : list Path)
    : result (gmap Path IBMiJson) :=
  map_all {[ [] := root_vars ]} (subdirs_of rules_mk_paths).

(** Every directory of [l] other than [Path('.')] has its parent in [l],
    or directly below [Path('.')]. *)
Definition parent_closed (l : list Path) : Prop :=
  forall d, d ∈ l -> d <> [] -> PathLib.parent d = [] ∨ PathLib.parent d ∈ l.

(** [m] holds the root's variables, and the variables of every other
    directory in it were made from those of its parent. *)
Definition top_down (root_vars : IBMiJson) (m : gmap Path IBMiJson) : Prop :=
  m !! [] = Some root_vars
  ∧ forall d, d <> [] -> is_Some (m !! d) ->
      exists v, m !! PathLib.parent d = Some v
        ∧ m !! d = Some (from_file (d // ".ibmi.json") v).

End Resolve.

Definition by_depth (a b : Path) : Prop := length a <= length b.

End Resolve.

(** ** The build environment *)

(** The attributes of [IProjJson] that [BuildEnv] reads. *)
Record IProjJson := {
  iproj_tgt_ccsid : string;
  iproj_objlib : string;
  curlib : string;
  pre_usr_libl : list string;
  post_usr_libl : list string;
  include_path : list string;
  set_ibm_i_env_cmd : list string
}.

(** What the modules that are not part of build.py provide. *)
Record Externals := {
  (** [RulesMk.from_file(path)] *)
  RulesMk_from_file : Path -> RulesMk;
  (** [str(rules_mk)] of the descriptor parsed with the include path *)
  RulesMk_str : Path -> string;
  (** [IBMiJson.from_file(path, parent)] *)
  IBMiJson_from_file : Path -> IBMiJson -> IBMiJson;
  (** [IBMiJson.from_values(tgt_ccsid, objlib)] *)
  IBMiJson_from_values : string -> string -> IBMiJson;
  (** [IProjJson.from_file(src_dir / "iproj.json")] *)
  iproj_json : IProjJson;
  objlib_to_path : string -> string;
  BOB_PATH : Path;
  support_color : bool
}.

(** The process and its file system.  [disk] holds absolute paths;
    [tmp_files] is the attribute [BuildEnv.tmp_files], which the class body
    binds once ([tmp_files: List[Path] = []]) and no instance rebinds;
    [commands] logs the commands handed to [run_command]. *)
Record World := {
  cwd : Path;
  disk : Disk;
  text : gmap Path string;
  tmp_files : list Path;
  commands : list string
}.

(** What the output handler can be called with: an object of type
    [bytes], or an object of another type. *)
Inductive output :=
| Bytes (b : string)
| NotBytes.

(** What [run_command] does with the command.  It reads the output of the
    child as [bytes] and calls the handler on each line, in order.
    [Exited lines rc]: the child printed [lines] and exited with [rc], and
    [run_command] raises nothing of its own.  [Crashed lines]: an exception
    leaves [run_command] once the handler has been called on [lines]; the
    exception [CommandError] stands for it. *)
Inductive Execution :=
| Exited (lines : list string) (returncode : Z)
| Crashed (lines : list string).

Module BuildEnv.

Record t := {
  src_dir : Path;
  targets : list string;
  make_options : string;
  bob_path : Path;
  bob_makefile : Path;
  build_vars_path : Path;
  ibmi_env_cmds : string;
  color : bool;
  target_maps : gmap string string;
  success_targets : list ustr;
  failed_targets : list ustr
}.

Section BuildEnv.

Variable ext : Externals.

(** *** File operations *)

Definition absolute (w : World) (p : Path) : Path :=
  match p with
  | x :: _ => if String.eqb x "/" then p else cwd w ++ p
  | [] => cwd w
  end.

Definition exists_ (w : World) (p : Path) : bool :=
  bool_decide (absolute w p ∈ disk w).

Definition write_text (w : World) (p : Path) (s : string) : World :=
  {| cwd := cwd w;
     disk := disk w ∪ {[absolute w p]};
     text := <[absolute w p := s]> (text w);
     tmp_files := tmp_files w;
     commands := commands w |}.

(** [p.unlink()] raises when the file is not there. *)
Definition unlink (w : World) (p : Path) : World * result unit :=
  if exists_ w p then
    ({| cwd := cwd w;
        disk := disk w ∖ {[absolute w p]};
        text := delete (absolute w p) (text w);
        tmp_files := tmp_files w;
        commands := commands w |}, Ok tt)
  else (w, Raise (FileNotFoundError p)).

(** [self.tmp_files.append(p)]: the list found through [self] is the one of
    the class. *)
Definition tmp_files_append (w : World) (p : Path) : World :=
  {| cwd := cwd w;
     disk := disk w;
     text := text w;
     tmp_files := tmp_files w ++ [p];
     commands := commands w |}.

Definition log_command (w : World) (cmd : string) : World :=
  {| cwd := cwd w;
     disk := disk w;
     text := text w;
     tmp_files := tmp_files w;
     commands := commands w ++ [cmd] |}.

(** [Path(".").rglob("Rules.mk")]: the paths below the working directory
    whose last part is [Rules.mk], relative to it.  The order is the one of
    the directory scan; the order of [elements] stands for it. *)
Definition relative_to (base p : Path) : option Path :=
  if decide (take (length base) p = base) then Some (drop (length base) p)
  else None.

Definition rglob_rules_mk (w : World) : list Path :=
  List.filter (fun p => String.eqb (PathLib.name p) "Rules.mk")
    (omap (relative_to (cwd w)) (elements (disk w))).

(** *** Include-path rendering *)

(** [incdir] as computed before the file is written. *)
Definition incdir (includePath : list string) : string :=
  if negb (Nat.eqb (length includePath) 0)
     && negb (bool_decide (map Str.upper includePath = ["*NONE"]))
  then "'" ++ Str.join "' '" includePath ++ "'"
  else "*NONE".

Definition INCDIR_line (includePath : list string) : string :=
  "INCDIR := " ++ incdir includePath.

Definition unquotedINCDIR_line (includePath : list string) : string :=
  "unquotedINCDIR := " ++ Str.join " " includePath.

Definition doublequotedINCDIR_line (includePath : list string) : string :=
  "doublequotedINCDIR := " ++ Str.replace_char "'" "''" (incdir includePath).

Definition nl : string := String (ascii_of_nat 10) "".

(** The text written before the per-directory lines. *)
Definition header (self : t) : string :=
  let ip := iproj_json ext in
  Str.join nl [
    "# This file is generated by makei, DO NOT EDIT.";
    "# Modify .ibmi.json to override values";
    "";
    "curlib := " ++ curlib ip;
    "preUsrlibl := " ++ Str.join " " (pre_usr_libl ip);
    "postUsrlibl := " ++ Str.join " " (post_usr_libl ip);
    INCDIR_line (include_path ip);
    unquotedINCDIR_line (include_path ip);
    doublequotedINCDIR_line (include_path ip);
    "IBMiEnvCmd := " ++ ibmi_env_cmds self;
    "COLOR_TTY := " ++ (if color self then "true" else "false");
    "";
    ""].

(** The two lines of one directory; [dir_var_map[subdir]] raises on a
    missing key. *)
Definition subdir_lines (w : World) (dir_var_map : gmap Path IBMiJson)
    (subdir : Path) : result string :=
  match dir_var_map !! subdir with
  | Some v =>
      Ok ("TGTCCSID_" ++ PathLib.str (absolute w subdir) ++ " := "
            ++ tgt_ccsid v ++ nl
          ++ "OBJPATH_" ++ PathLib.str (absolute w subdir) ++ " := "
            ++ objlib_to_path ext (objlib v) ++ nl)
  | None => Raise (KeyError (PathLib.str subdir))
  end.

Fixpoint all_subdir_lines (w : World) (dir_var_map : gmap Path IBMiJson)
    (subdirs : list Path) : result string :=
  match subdirs with
  | [] => Ok ""
  | subdir :: l =>
      match subdir_lines w dir_var_map subdir with
      | Ok s =>
          match all_subdir_lines w dir_var_map l with
          | Ok s' => Ok (s ++ s')
          | Raise e => Raise e
          end
      | Raise e => Raise e
      end
  end.

(** *** [_create_build_vars] *)

(** The loop that writes a [.Rules.mk.build] beside every [Rules.mk]. *)
Definition create_rules_mk_build (w : World) (rules_mk_path : Path) : World :=
  let rules_mk_build_path := PathLib.parent rules_mk_path // ".Rules.mk.build" in
  tmp_files_append
    (write_text w rules_mk_build_path (RulesMk_str ext rules_mk_path))
    rules_mk_build_path.

Definition _create_build_vars (w : World) (self : t) : World * result unit :=
  let rules_mk_paths := rglob_rules_mk w in
  let w1 := foldl create_rules_mk_build w rules_mk_paths in
  let root_vars :=
    IBMiJson_from_values ext (iproj_tgt_ccsid (iproj_json ext))
      (iproj_objlib (iproj_json ext)) in
  match Resolve.resolve (IBMiJson_from_file ext) root_vars rules_mk_paths with
  | Raise e => (w1, Raise e)
  | Ok dir_var_map =>
      match all_subdir_lines w1 dir_var_map (Resolve.subdirs_of rules_mk_paths) with
      | Raise e => (write_text w1 (build_vars_path self) (header self), Raise e)
      | Ok s => (write_text w1 (build_vars_path self) (header self ++ s), Ok tt)
      end
  end.

(** *** [__init__] *)

(** [[self.target_maps[src] for src in srcs]] *)
Fixpoint lookup_srcs (target_maps : gmap string string) (srcs : list string)
    : result (list string) :=
  match srcs with
  | [] => Ok []
  | src :: l =>
      match target_maps !! src with
      | None => Raise (KeyError src)
      | Some target =>
          match lookup_srcs target_maps l with
          | Ok ts => Ok (target :: ts)
          | Raise e => Raise e
          end
      end
  end.

(** The three branches on [targets] and [srcs]; [None] and the empty list
    are both false for [if]. *)
Definition choose_targets (target_maps : gmap string string)
    (targets srcs : list string) : result (list string) :=
  match targets with
  | _ :: _ => Ok targets
  | [] =>
      match srcs with
      | _ :: _ => lookup_srcs target_maps srcs
      | [] => Ok ["all"]
      end
  end.

(** The constructor.  [tmp] is the path [mkstemp()] returns, [over] the
    value of [overrides["bob_path"]] when given; [None] when the walk over
    the descriptors did not end within [fuel] iterations. *)
Definition __init__ (fuel : nat) (w : World) (tmp : Path)
    (targets srcs : list string) (make_options : string)
    (over : option Path) : option (World * result t) :=
  let src_dir := cwd w in
  let bob_path := default (BOB_PATH ext) over in
  let w0 := write_text w tmp "" in
  match Walk._read_rules_mks (RulesMk_from_file ext) (disk w0) src_dir fuel with
  | None => None
  | Some target_maps =>
      match choose_targets target_maps targets srcs with
      | Raise e => Some (w0, Raise e)
      | Ok ts =>
          let self :=
            {| src_dir := src_dir;
               targets := ts;
               make_options := make_options;
               bob_path := bob_path;
               bob_makefile := bob_path // "mk" // "Makefile";
               build_vars_path := tmp;
               ibmi_env_cmds :=
                 Str.join "\n" (set_ibm_i_env_cmd (iproj_json ext));
               color := support_color ext;
               target_maps := target_maps;
               success_targets := [];
               failed_targets := [] |} in
          match _create_build_vars w0 self with
          | (w1, Ok _) => Some (w1, Ok self)
          | (w1, Raise e) => Some (w1, Raise e)
          end
      end
  end.

(** [__del__] *)
Definition __del__ (w : World) (build_vars_path : Path) : World * result unit :=
  unlink w build_vars_path.

(** *** [generate_make_cmd] *)

Definition dquote : string := String (ascii_of_nat 34) "".

Definition generate_make_cmd (self : t) : string :=
  let cmd :=
    "/QOpenSys/pkgs/bin/make -k BUILDVARSMKPATH=" ++ dquote
      ++ PathLib.str (build_vars_path self) ++ dquote
      ++ " -k BOB=" ++ dquote ++ PathLib.str (bob_path self) ++ dquote
      ++ " -f " ++ dquote ++ PathLib.str (bob_makefile self) ++ dquote in
  let cmd :=
    if String.eqb (make_options self) "" then cmd
    else cmd ++ " " ++ make_options self in
  cmd ++ " " ++ Str.join " " (targets self).

(** *** [make] *)

Definition set_failed_targets (self : t) (l : list ustr) : t :=
  {| src_dir := src_dir self; targets := targets self;
     make_options := make_options self; bob_path := bob_path self;
     bob_makefile := bob_makefile self;
     build_vars_path := build_vars_path self;
     ibmi_env_cmds := ibmi_env_cmds self; color := color self;
     target_maps := target_maps self;
     success_targets := success_targets self;
     failed_targets := l |}.

Definition set_success_targets (self : t) (l : list ustr) : t :=
  {| src_dir := src_dir self; targets := targets self;
     make_options := make_options self; bob_path := bob_path self;
     bob_makefile := bob_makefile self;
     build_vars_path := build_vars_path self;
     ibmi_env_cmds := ibmi_env_cmds self; color := color self;
     target_maps := target_maps self;
     success_targets := l;
     failed_targets := failed_targets self |}.

(** [line.split()[-1].split("!")[0]] *)
Definition failed_name (line : ustr) : result ustr :=
  match List.rev (UStr.split line) with
  | [] => Raise IndexError
  | word :: _ => Ok (UStr.before 33 word)
  end.

(** [line.split()[1]] *)
Definition success_name (line : ustr) : result ustr :=
  match UStr.split line with
  | _ :: word :: _ => Ok word
  | _ => Raise IndexError
  end.

(** [if type(lineBytes) == bytes: line = lineBytes.decode(...)]: decoding
    raises on bytes that are not UTF-8, and for an object of another type
    [line] stays unbound, so that its first use raises. *)
Definition decode_line (lineBytes : output) : result ustr :=
  match lineBytes with
  | Bytes b =>
      match UStr.decode b with
      | Some line => Ok line
      | None => Raise UnicodeDecodeError
      end
  | NotBytes => Raise UnboundLocalError
  end.

(** The two tests of [handle_make_output] on the decoded line. *)
Definition classify (self : t) (line : ustr) : t * result unit :=
  let r1 :=
    if UStr.contains (UStr.of_string "Failed to create") line then
      match failed_name line with
      | Ok n => (set_failed_targets self (failed_targets self ++ [n])%list, Ok tt)
      | Raise e => (self, Raise e)
      end
    else (self, Ok tt) in
  match r1 with
  | (self1, Raise e) => (self1, Raise e)
  | (self1, Ok _) =>
      if UStr.contains (UStr.of_string "was created successfully!") line then
        match success_name line with
        | Ok n =>
            (set_success_targets self1 (success_targets self1 ++ [n])%list, Ok tt)
        | Raise e => (self1, Raise e)
        end
      else (self1, Ok tt)
  end.

Definition handle_make_output (self : t) (lineBytes : output) : t * result unit :=
  match decode_line lineBytes with
  | Raise e => (self, Raise e)
  | Ok line => classify self line
  end.

(** The calls of the handler by [run_command], one per line of [bytes]; the
    first exception ends them. *)
Fixpoint handle_lines (self : t) (lines : list string) : t * result unit :=
  match lines with
  | [] => (self, Ok tt)
  | line :: l =>
      match handle_make_output self (Bytes line) with
      | (self1, Ok _) => handle_lines self1 l
      | (self1, Raise e) => (self1, Raise e)
      end
  end.

(** [for tmp_file in self.tmp_files: tmp_file.unlink()] *)
Fixpoint unlink_all (w : World) (l : list Path) : World * result unit :=
  match l with
  | [] => (w, Ok tt)
  | tmp_file :: l' =>
      match unlink w tmp_file with
      | (w1, Ok _) => unlink_all w1 l'
      | (w1, Raise e) => (w1, Raise e)
      end
  end.

Definition _post_make (w : World) (self : t) : World * result unit :=
  unlink_all w (tmp_files w).

Definition unlink_if_exists (w : World) (p : Path) : World :=
  if exists_ w p then (unlink w p).1 else w.

Definition make (w : World) (self : t) (exec : Execution)
    : World * t * result bool :=
  let w1 := unlink_if_exists w (src_dir self // ".logs" // "joblog.json") in
  let w2 := unlink_if_exists w1 (src_dir self // ".logs" // "output.log") in
  let w3 := log_command w2 (generate_make_cmd self) in
  match exec with
  | Crashed lines => (w3, (handle_lines self lines).1, Raise CommandError)
  | Exited lines _ =>
      match handle_lines self lines with
      | (self1, Raise e) => (w3, self1, Raise e)
      | (self1, Ok _) =>
          match _post_make w3 self1 with
          | (w4, Raise e) => (w4, self1, Raise e)
          | (w4, Ok _) =>
              (w4, self1,
               Ok (match failed_targets self1 with [] => true | _ => false end))
          end
      end
  end.

(** *** One build: construction, [make()], finalisation *)

Definition invocation (fuel : nat) (w : World) (tmp : Path)
    (targets srcs : list string) (make_options : string)
    (over : option Path) (exec : Execution) : option (World * result bool) :=
  match __init__ fuel w tmp targets srcs make_options over with
  | None => None
  | Some (w1, Raise e) => Some ((__del__ w1 tmp).1, Raise e)
  | Some (w1, Ok self) =>
      match make w1 self exec with
      | (w2, self1, r) => Some ((__del__ w2 (build_vars_path self1)).1, r)
      end
  end.

End BuildEnv.
End BuildEnv.

(** The path of the executor-ready copy written beside the descriptor
    [rules_mk_path]: [rules_mk_path.parent / ".Rules.mk.build"]. *)
Definition descriptor_copy (rules_mk_path : Path) : Path :=
  PathLib.parent rules_mk_path // ".Rules.mk.build".

(** The world in which [make()] calls [run_command]: the two logs of the
    previous run unlinked, the command logged. *)
Definition log_command_of (w : World) (self : BuildEnv.t) : World :=
  BuildEnv.log_command
    (BuildEnv.unlink_if_exists
       (BuildEnv.unlink_if_exists w
          (BuildEnv.src_dir self // ".logs" // "joblog.json"))
       (BuildEnv.src_dir self // ".logs" // "output.log"))
    (BuildEnv.generate_make_cmd self).

(** A path that has the root part ["/"] nowhere but in front. *)
Definition rooted_once (p : Path) : Prop := "/" ∉ drop 1 p.

(** ** Lines of executor output *)

(** The bytes of a line that reports the failure of target [T1], and of one
    that reports the success of target [T2] after a leading word [w], for
    names in ASCII. *)
Definition failed_line (T1 : string) : string :=
  "Failed to create " ++ T1 ++ "!".

Definition success_line (w T2 : string) : string :=
  w ++ " " ++ T2 ++ " was created successfully!".



(** A line that decodes. *)
Definition decodable (b : string) : Prop := is_Some (UStr.decode b).


(** The names that the handler appends for the line [b]. *)
Definition failed_of (b : string) : list ustr :=
  match UStr.decode b with
  | Some line =>
      if UStr.contains (UStr.of_string "Failed to create") line then
        match BuildEnv.failed_name line with
        | Ok n => [n]
        | Raise _ => []
        end
      else []
  | None => []
  end.

Definition success_of (b : string) : list ustr :=
  match UStr.decode b with
  | Some line =>
      if UStr.contains (UStr.of_string "was created successfully!") line then
        match BuildEnv.success_name line with
        | Ok n => [n]
        | Raise _ => []
        end
      else []
  | None => []
  end.


(** ** Sample projects *)

Module Samples.

(** A parser given by the table of the descriptors it returns; a path not in
    the table parses to a descriptor that declares nothing. *)
Fixpoint parse_table (tbl : list (Path * RulesMk)) (p : Path) : RulesMk :=
  match tbl with
  | [] => {| containing_dir := PathLib.parent p; subdirs := []; targets := [] |}
  | (q, rm) :: tbl' => if bool_decide (p = q) then rm else parse_table tbl' p
  end.

Definition proj : Path := ["/"; "proj"].

Definition under (l : list string) : Path := (proj ++ l)%list.

(** [a] and [b] declare each other. *)
Definition cycle_disk : Disk :=
  {[ proj; under ["Rules.mk"];
     under ["a"]; under ["a"; "Rules.mk"];
     under ["b"]; under ["b"; "Rules.mk"] ]}.

Definition cycle_parse : Path -> RulesMk :=
  parse_table
    [ (under ["Rules.mk"],
       {| containing_dir := proj; subdirs := ["a"]; targets := [] |});
      (under ["a"; "Rules.mk"],
       {| containing_dir := under ["a"]; subdirs := ["b"];
          targets := [("A.PGM", ["a.rpgle"])] |});
      (under ["b"; "Rules.mk"],
       {| containing_dir := under ["b"]; subdirs := ["a"];
          targets := [("B.PGM", ["b.rpgle"])] |}) ].

(** The root declares [a] and [b], and [a] declares [b] again. *)
Definition diamond_parse : Path -> RulesMk :=
  parse_table
    [ (under ["Rules.mk"],
       {| containing_dir := proj; subdirs := ["a"; "b"]; targets := [] |});
      (under ["a"; "Rules.mk"],
       {| containing_dir := under ["a"]; subdirs := ["b"];
          targets := [("A.PGM", ["a.rpgle"])] |});
      (under ["b"; "Rules.mk"],
       {| containing_dir := under ["b"]; subdirs := [];
          targets := [("B.PGM", ["b.rpgle"])] |}) ].

(** The root declares [a] and [b], which declare nothing. *)
Definition flat_parse : Path -> RulesMk :=
  parse_table
    [ (under ["Rules.mk"],
       {| containing_dir := proj; subdirs := ["a"; "b"]; targets := [] |});
      (under ["a"; "Rules.mk"],
       {| containing_dir := under ["a"]; subdirs := [];
          targets := [("A.PGM", ["a.rpgle"])] |});
      (under ["b"; "Rules.mk"],
       {| containing_dir := under ["b"]; subdirs := [];
          targets := [("B.PGM", ["b.rpgle"])] |}) ].

Definition diamond_rank (p : Path) : nat :=
  if bool_decide (p = under ["Rules.mk"]) then 2
  else if bool_decide (p = under ["a"; "Rules.mk"]) then 1 else 0.

Definition flat_rank (p : Path) : nat :=
  if bool_decide (p = under ["Rules.mk"]) then 1 else 0.

(** The root builds a program from the source file [util] and also has a
    subdirectory [util]. *)
Definition util_disk : Disk :=
  {[ proj; under ["Rules.mk"]; under ["util"];
     under ["util"; "Rules.mk"] ]}.

Definition util_parse : Path -> RulesMk :=
  parse_table
    [ (under ["Rules.mk"],
       {| containing_dir := proj; subdirs := ["util"];
          targets := [("UTIL.PGM", ["util"])] |});
      (under ["util"; "Rules.mk"],
       {| containing_dir := under ["util"]; subdirs := [];
          targets := [("HELPER.MODULE", ["helper.rpgle"])] |}) ].

(** The root declares the subdirectory [ghost], which is not on the disk. *)
Definition ghost_disk : Disk := {[ proj; under ["Rules.mk"] ]}.

(** The same with an empty directory [ghost]. *)
Definition ghost_dir_disk : Disk :=
  {[ proj; under ["Rules.mk"]; under ["ghost"] ]}.

Definition ghost_parse : Path -> RulesMk :=
  parse_table
    [ (under ["Rules.mk"],
       {| containing_dir := proj; subdirs := ["ghost"];
          targets := [("HELLO.PGM", ["hello.rpgle"])] |}) ].

(** [a] declares [b], meaning its own subdirectory [a/b]. *)
Definition nested_disk : Disk :=
  {[ proj; under ["Rules.mk"]; under ["a"]; under ["a"; "Rules.mk"];
     under ["a"; "b"]; under ["a"; "b"; "Rules.mk"] ]}.

Definition nested_parse : Path -> RulesMk :=
  parse_table
    [ (under ["Rules.mk"],
       {| containing_dir := proj; subdirs := ["a"]; targets := [] |});
      (under ["a"; "Rules.mk"],
       {| containing_dir := under ["a"]; subdirs := ["b"];
          targets := [("A.PGM", ["a.rpgle"])] |});
      (under ["a"; "b"; "Rules.mk"],
       {| containing_dir := under ["a"; "b"]; subdirs := [];
          targets := [("B.PGM", ["b.rpgle"])] |}) ].

(** Where the walk of the nested project ends. *)
Definition nested_final : Walk.state :=
  Walk.Build_state []
    (<["a" := "dir_a"]> (<["a.rpgle" := "A.PGM"]> (<["proj" := "dir_proj"]> ∅)))
    [under ["Rules.mk"]; under ["a"; "Rules.mk"]].

(** The root declares [src/app]; [src] has no descriptor of its own. *)
Definition gap_disk : Disk :=
  {[ proj; under ["Rules.mk"]; under ["src"]; under ["src"; "app"];
     under ["src"; "app"; "Rules.mk"] ]}.

Definition gap_parse : Path -> RulesMk :=
  parse_table
    [ (under ["Rules.mk"],
       {| containing_dir := proj; subdirs := ["src/app"]; targets := [] |});
      (under ["src"; "app"; "Rules.mk"],
       {| containing_dir := under ["src"; "app"]; subdirs := [];
          targets := [("APP.PGM", ["app.rpgle"])] |}) ].

(** An override file sets the library of its directory to the directory's
    name; a directory without one inherits. *)
Definition sample_ibmi (overridden : list Path) (p : Path) (parent : IBMiJson)
    : IBMiJson :=
  if bool_decide (PathLib.parent p ∈ overridden)
  then {| tgt_ccsid := tgt_ccsid parent;
          objlib := PathLib.name (PathLib.parent p) |}
  else parent.

Definition sample_iproj : IProjJson :=
  {| iproj_tgt_ccsid := "37"; iproj_objlib := "MYLIB"; curlib := "MYLIB";
     pre_usr_libl := []; post_usr_libl := [];
     include_path := ["A"; "B"]; set_ibm_i_env_cmd := [] |}.

Definition sample_ext (parse : Path -> RulesMk) : Externals :=
  {| RulesMk_from_file := parse;
     RulesMk_str := fun p => "include " ++ PathLib.str p;
     IBMiJson_from_file := sample_ibmi [];
     IBMiJson_from_values := fun c l => {| tgt_ccsid := c; objlib := l |};
     iproj_json := sample_iproj;
     objlib_to_path := fun l => "/QSYS.LIB/" ++ l ++ ".LIB";
     BOB_PATH := ["/"; "opt"; "bob"];
     support_color := false |}.

Definition world_of (d : Disk) : World :=
  {| cwd := proj; disk := d; text := ∅; tmp_files := []; commands := [] |}.

(** The same descriptors, said to lie somewhere else and to build nothing. *)
Definition relocated (parse : Path -> RulesMk) (p : Path) : RulesMk :=
  {| containing_dir := ["/"; "elsewhere"]; subdirs := subdirs (parse p);
     targets := [] |}.

Definition tmp : Path := ["/"; "tmp"; "tmpab12cd"].
Definition tmp2 : Path := ["/"; "tmp"; "tmpef34gh"].

(** The state in which the walk of the [util] project ends. *)
Definition util_final : Walk.state :=
  {| Walk.rules_mks := [];
     Walk.map_to_targets :=
       <["util" := "dir_util"]>
         (<["helper.rpgle" := "HELPER.MODULE"]>
            (<["proj" := "dir_proj"]> (<["util" := "UTIL.PGM"]> ∅)));
     Walk.visited := [under ["Rules.mk"]; under ["util"; "Rules.mk"]] |}.

(** The descriptors [rglob] finds in the nested project, in some order,
    and the variables of a project. *)
Definition nested_rules_mk_paths : list Path :=
  [["a"; "b"; "Rules.mk"]; ["Rules.mk"]; ["a"; "Rules.mk"]].

Definition sample_root_vars : IBMiJson :=
  {| tgt_ccsid := "37"; objlib := "MYLIB" |}.

(** A build environment before [make()]. *)
Definition sample_self : BuildEnv.t :=
  {| BuildEnv.src_dir := proj;
     BuildEnv.targets := ["all"];
     BuildEnv.make_options := "";
     BuildEnv.bob_path := ["/"; "opt"; "bob"];
     BuildEnv.bob_makefile := ["/"; "opt"; "bob"; "mk"; "Makefile"];
     BuildEnv.build_vars_path := tmp;
     BuildEnv.ibmi_env_cmds := "";
     BuildEnv.color := false;
     BuildEnv.target_maps := ∅;
     BuildEnv.success_targets := [];
     BuildEnv.failed_targets := [] |}.

(** What the walk of the single-descriptor project returns. *)
Definition single_map : gmap string string :=
  <["proj" := "dir_proj"]> (<["hello.rpgle" := "HELLO.PGM"]> ∅).

(** A project with the root descriptor alone. *)
Definition single_disk : Disk := {[ proj; under ["Rules.mk"] ]}.

Definition single_parse : Path -> RulesMk :=
  parse_table
    [ (under ["Rules.mk"],
       {| containing_dir := proj; subdirs := [];
          targets := [("HELLO.PGM", ["hello.rpgle"])] |}) ].

(** The world after the construction of an environment for the project
    with one descriptor: the copy is on disk and listed. *)
Definition built_world : World :=
  {| cwd := proj;
     disk := single_disk ∪ {[ under [".Rules.mk.build"] ]};
     text := ∅;
     tmp_files := [[".Rules.mk.build"]];
     commands := [] |}.

(** What is left of an invocation: whether a descriptor copy and the
    variable file are still on disk, and how it ended. *)
Definition leftovers (r : option (World * result bool))
    : option (bool * bool * result bool) :=
  match r with
  | Some (w, res) =>
      Some (bool_decide (under [".Rules.mk.build"] ∈ disk w),
            bool_decide (tmp ∈ disk w), res)
  | None => None
  end.

(** Two environments constructed one after the other, and then [make()] on
    the first: the list of temporary files after each construction, and the
    result of [make()]. *)
Definition two_environments
    : option (list Path * list Path * result bool) :=
  match BuildEnv.__init__ (sample_ext single_parse) 2 (world_of single_disk)
          tmp [] [] "" None with
  | Some (w1, Ok env1) =>
      match BuildEnv.__init__ (sample_ext single_parse) 2 w1 tmp2 [] [] "" None with
      | Some (w2, Ok env2) =>
          Some (tmp_files w1, tmp_files w2,
                (BuildEnv.make w2 env1 (Exited [] 0%Z)).2)
      | _ => None
      end
  | _ => None
  end.

End Samples.

(** * Properties *)

(** ** Membership in a concrete disk *)

Ltac on_disk := apply (bool_decide_unpack _); vm_compute; exact I.
Ltac off_disk :=
  let H := fresh in
  intros H; apply (bool_decide_pack _) in H; vm_compute in H; exact H.

(** ** Paths *)

Lemma joinpath_Rules_mk (p : Path) : p // "Rules.mk" = (p ++ ["Rules.mk"])%list.
Proof. reflexivity. Qed.

Lemma name_snoc (p : Path) (x : string) :
  x <> "/" -> PathLib.name (p ++ [x])%list = x.
Proof.
  intros Hx. unfold PathLib.name. rewrite rev_app_distr. simpl.
  destruct (String.eqb_spec x "/"); [contradiction | reflexivity].
Qed.

Lemma parent_snoc (p : Path) (x : string) : PathLib.parent (p ++ [x])%list = p.
Proof. unfold PathLib.parent. apply removelast_last. Qed.

Lemma elem_of_rev {A} (x : A) (l : list A) : x ∈ List.rev l <-> x ∈ l.
Proof. rewrite !list_elem_of_In. symmetry. apply in_rev. Qed.

Lemma elem_of_rev_1 {A} (x : A) (l : list A) : x ∈ List.rev l -> x ∈ l.
Proof. apply elem_of_rev. Qed.

Lemma elem_of_List_filter {A} (f : A -> bool) (l : list A) (x : A) :
  x ∈ List.filter f l -> f x = true ∧ x ∈ l.
Proof. rewrite !list_elem_of_In, filter_In. tauto. Qed.

Lemma elem_of_flat_map {A B} (f : A -> list B) (l : list A) (y : B) :
  y ∈ flat_map f l <-> exists x, x ∈ l ∧ y ∈ f x.
Proof.
  rewrite list_elem_of_In, in_flat_map. split; intros (x & H1 & H2); exists x.
  - by rewrite !list_elem_of_In.
  - by rewrite <- !list_elem_of_In.
Qed.

Lemma NoDup_flat_map {A B} (f : A -> list B) (l : list A) :
  NoDup l -> (forall x, x ∈ l -> NoDup (f x)) ->
  (forall x1 x2 y, x1 ∈ l -> x2 ∈ l -> y ∈ f x1 -> y ∈ f x2 -> x1 = x2) ->
  NoDup (flat_map f l).
Proof.
  induction l as [|x l IH]; intros Hl Hf Hd; simpl; [constructor|].
  apply NoDup_cons in Hl as [Hx Hl]. apply NoDup_app. split; [|split].
  - apply Hf. left.
  - intros y Hy (x2 & Hx2 & Hy2)%elem_of_flat_map.
    apply Hx. rewrite (Hd x x2 y); [done|left|by right|done|done].
  - apply IH; [done| |]; intros; [apply Hf|eapply Hd]; eauto; by right.
Qed.

(** ** The walk *)

Section WalkFacts.

Variable from_file : Path -> RulesMk.
Variable disk : Disk.
Variable src_dir : Path.

Local Abbreviation loop := (Walk.loop from_file disk src_dir).
Local Abbreviation iteration := (Walk.iteration from_file disk src_dir).
Local Abbreviation init := (Walk.init src_dir).
Local Abbreviation children := (Walk.children from_file src_dir).
Local Abbreviation link := (Walk.link from_file disk src_dir).
Local Abbreviation reachable := (Walk.reachable from_file disk src_dir).
Local Abbreviation visit := (Walk.visit from_file disk src_dir).
Local Abbreviation root := (Walk.root src_dir).
Local Abbreviation State := Walk.Build_state.

Lemma loop_done (fuel : nat) (m : gmap string string) (v : list Path) :
  loop fuel (State [] m v) = Some (State [] m v).
Proof. destruct fuel; reflexivity. Qed.

Lemma loop_step (fuel : nat) (p : Path) (rest : list Path)
    (m : gmap string string) (v : list Path) :
  loop (S fuel) (State (p :: rest) m v) = loop fuel (iteration p rest m v).
Proof. reflexivity. Qed.

Lemma loop_more_fuel (fuel k : nat) (st st' : Walk.state) :
  loop fuel st = Some st' -> loop (fuel + k) st = Some st'.
Proof.
  revert st. induction fuel as [|fuel IH]; intros [stack m v]; simpl.
  - destruct stack; [|discriminate]. intros [= <-]. apply loop_done.
  - destruct stack; [intros [= <-]; reflexivity|]. apply IH.
Qed.

Lemma loop_ends_empty (fuel : nat) (st st' : Walk.state) :
  loop fuel st = Some st' -> Walk.rules_mks st' = [].
Proof.
  revert st. induction fuel as [|fuel IH]; intros [stack m v]; simpl.
  - destruct stack; [|discriminate]. by intros [= <-].
  - destruct stack; [by intros [= <-]|]. apply IH.
Qed.

Lemma iteration_missing (p : Path) (rest : list Path)
    (m : gmap string string) (v : list Path) :
  p ∉ disk -> iteration p rest m v = State rest m v.
Proof. intros H. unfold Walk.iteration. by rewrite decide_False. Qed.

Lemma iteration_present (p : Path) (rest : list Path)
    (m : gmap string string) (v : list Path) :
  p ∈ disk ->
  iteration p rest m v =
    State (List.rev (children p) ++ rest)
      (Walk.record_descriptor m (from_file p)) (v ++ [p]).
Proof. intros H. unfold Walk.iteration. by rewrite decide_True. Qed.

Lemma visit_missing (n : nat) (p : Path) : p ∉ disk -> visit n p = [].
Proof. intros H. destruct n; simpl; [done|]. by rewrite decide_False. Qed.

Lemma visit_present (n : nat) (p : Path) :
  p ∈ disk -> visit (S n) p = p :: flat_map (visit n) (List.rev (children p)).
Proof. intros H. simpl. by rewrite decide_True. Qed.

Lemma link_target_on_disk (c q : Path) : rtc link c q -> q ∈ disk -> c ∈ disk.
Proof. intros H Hq. destruct H as [|x y z [Hx _] _]; done. Qed.

Section Ranked.

Variable rank : Path -> nat.
Hypothesis ranked : Walk.ranked from_file disk src_dir rank.

Lemma rank_rtc (a b : Path) :
  reachable a -> rtc link a b -> b ∈ disk -> rank b <= rank a.
Proof.
  intros Ha Hab Hb. induction Hab as [a|a c b Hac Hcb IH]; [lia|].
  assert (c ∈ disk) by (eapply link_target_on_disk; eauto).
  assert (rank c < rank a) by (by apply ranked).
  assert (reachable c) by (eapply rtc_r; eauto).
  specialize (IH ltac:(done) Hb). lia.
Qed.

Lemma no_cycle (p c : Path) :
  reachable p -> link p c -> c ∈ disk -> rtc link c p -> False.
Proof.
  intros Hp Hl Hc Hcp.
  assert (rank c < rank p) by (by apply ranked).
  assert (rank p <= rank c).
  { apply rank_rtc; [eapply rtc_r; eauto|done|by destruct Hl]. }
  lia.
Qed.

(** Walking the subtree of [p] takes finitely many iterations and appends
    [visit n p] to the log. *)
Lemma loop_visit (n : nat) :
  forall p : Path, reachable p -> (p ∈ disk -> rank p < n) ->
  forall rest m v, exists k m',
    forall fuel, loop (k + fuel) (State (p :: rest) m v)
                 = loop fuel (State rest m' (v ++ visit n p)).
Proof.
  induction n as [|n IH]; intros p Hp Hn rest m v.
  - assert (p ∉ disk) by (intros ?; specialize (Hn ltac:(done)); lia).
    exists 1, m. intros fuel. simpl. rewrite iteration_missing by done.
    by rewrite app_nil_r.
  - destruct (decide (p ∈ disk)) as [Hin|Hout].
    2:{ exists 1, m. intros fuel. change (1 + fuel) with (S fuel).
        rewrite loop_step, iteration_missing by done.
        rewrite visit_missing by done. by rewrite app_nil_r. }
    assert (Hcs : forall cs, (forall c, c ∈ cs -> c ∈ children p) ->
      forall m1 v1, exists k m', forall fuel,
        loop (k + fuel) (State (cs ++ rest) m1 v1)
        = loop fuel (State rest m' (v1 ++ flat_map (visit n) cs))).
    { induction cs as [|c cs IHcs]; intros Hsub m1 v1.
      - exists 0, m1. intros fuel. simpl. by rewrite app_nil_r.
      - destruct (IH c) with (rest := (cs ++ rest)%list) (m := m1) (v := v1)
          as (k1 & m2 & E1).
        + eapply rtc_r; [exact Hp|]. split; [done|]. apply Hsub. left.
        + intros Hc. specialize (Hn Hin).
          assert (rank c < rank p); [|lia].
          apply ranked; [done| |done]. split; [done|]. apply Hsub. left.
        + destruct (IHcs (fun c' H' => Hsub c' (list_elem_of_further _ _ _ H'))
                      m2 (v1 ++ visit n c)%list) as (k2 & m3 & E2).
          exists (k1 + k2), m3. intros fuel.
          replace (k1 + k2 + fuel) with (k1 + (k2 + fuel)) by lia.
          change ((c :: cs) ++ rest)%list with (c :: (cs ++ rest))%list.
          rewrite E1, E2. simpl. by rewrite <- app_assoc. }
    destruct (Hcs (List.rev (children p))) with
      (m1 := Walk.record_descriptor m (from_file p)) (v1 := (v ++ [p])%list)
      as (k & m' & E).
    { intros c Hc. by apply elem_of_rev. }
    exists (S k), m'. intros fuel. change (S k + fuel) with (S (k + fuel)).
    rewrite loop_step, iteration_present by done.
    rewrite E, visit_present by done. by rewrite <- app_assoc.
Qed.

(** Everything the cut visit lists is linked from its start. *)
Lemma visit_sound (n : nat) (p q : Path) :
  q ∈ visit n p -> rtc link p q ∧ q ∈ disk.
Proof.
  revert p. induction n as [|n IH]; intros p; simpl; [by intros ?%elem_of_nil|].
  destruct (decide (p ∈ disk)) as [Hin|]; [|by intros ?%elem_of_nil].
  intros [->|Hq]%elem_of_cons; [done|].
  apply elem_of_flat_map in Hq as (c & Hc & Hq).
  apply IH in Hq as [Hcq Hqd].
  split; [|done]. eapply rtc_l; [|exact Hcq].
  split; [done|]. by apply elem_of_rev.
Qed.

Lemma visit_complete (n : nat) :
  forall p q : Path, reachable p -> rank p < n ->
  rtc link p q -> q ∈ disk -> q ∈ visit n p.
Proof.
  induction n as [|n IH]; intros p q Hp Hn Hpq Hq; [lia|].
  assert (p ∈ disk) by (eapply link_target_on_disk; eauto).
  rewrite visit_present by done.
  destruct Hpq as [|p c q Hpc Hcq]; [left|].
  right. apply elem_of_flat_map. exists c.
  assert (c ∈ disk) by (eapply link_target_on_disk; eauto).
  split; [apply elem_of_rev; by destruct Hpc|].
  apply IH; [eapply rtc_r; eauto| |done|done].
  assert (rank c < rank p) by (by apply ranked). lia.
Qed.

Section Tree.

Hypothesis tree : Walk.tree_like from_file disk src_dir.

(** Two descriptors that both lead to [q] lie on one chain. *)
Lemma chain_order (c1 c2 q : Path) :
  reachable c1 -> reachable c2 -> rtc link c1 q -> rtc link c2 q -> q ∈ disk ->
  rtc link c1 c2 ∨ rtc link c2 c1.
Proof.
  intros H1 H2 H1q. revert q H1q.
  apply (rtc_ind_r (fun q => rtc link c2 q -> q ∈ disk ->
                             rtc link c1 c2 ∨ rtc link c2 c1)).
  - intros H _. by right.
  - intros y z H1y Hyz IH H2z Hz.
    apply rtc_inv_r in H2z as [->|(y' & H2y' & Hy'z)].
    + left. eapply rtc_r; eauto.
    + assert (y = y') as <-.
      { destruct tree as [Hup _]. apply (Hup y y' z); try done.
        - eapply rtc_trans; [exact H1|exact H1y].
        - eapply rtc_trans; [exact H2|exact H2y']. }
      apply IH; [done|]. by destruct Hyz.
Qed.

Lemma flat_map_visit_on_disk (n : nat) (cs : list Path) :
  flat_map (visit n) cs
  = flat_map (visit n) (List.filter (fun c => bool_decide (c ∈ disk)) cs).
Proof.
  induction cs as [|c cs IH]; [done|]. simpl.
  destruct (bool_decide_reflect (c ∈ disk)); simpl.
  - by rewrite IH.
  - by rewrite visit_missing.
Qed.

Lemma visit_NoDup (n : nat) : forall p : Path, reachable p -> NoDup (visit n p).
Proof.
  induction n as [|n IH]; intros p Hp; [constructor|].
  destruct (decide (p ∈ disk)) as [Hin|Hout];
    [|rewrite visit_missing by done; constructor].
  rewrite visit_present by done. apply NoDup_cons. split.
  - intros (c & Hc%elem_of_rev_1 & Hv%visit_sound)%elem_of_flat_map.
    destruct Hv as [Hcp _].
    apply (no_cycle p c); try done.
    eapply link_target_on_disk; eauto.
  - rewrite flat_map_visit_on_disk. apply NoDup_flat_map.
    + rewrite filter_rev. apply NoDup_ListNoDup, NoDup_rev, NoDup_ListNoDup.
      destruct tree as [_ Hnd]. by apply Hnd.
    + intros c [_ Hc%elem_of_rev_1]%elem_of_List_filter. apply IH.
      eapply rtc_r; eauto. by split.
    + intros x1 x2 y [Hd1%bool_decide_eq_true_1 Hx1%elem_of_rev_1]%elem_of_List_filter
        [Hd2%bool_decide_eq_true_1 Hx2%elem_of_rev_1]%elem_of_List_filter
        [H1y Hy]%visit_sound [H2y _]%visit_sound.
      assert (Hl1 : link p x1) by (split; assumption).
      assert (Hl2 : link p x2) by (split; assumption).
      assert (Hr1 : reachable x1) by (eapply rtc_r; [exact Hp|exact Hl1]).
      assert (Hr2 : reachable x2) by (eapply rtc_r; [exact Hp|exact Hl2]).
      destruct (decide (x1 = x2)) as [|Hne]; [done|exfalso].
      assert (Hback : forall a b, link p a -> link p b -> a ∈ disk -> b ∈ disk ->
                reachable a -> a <> b -> rtc link a b -> False).
      { intros a b Ha Hb Had Hbd Hra Hab Hrtc.
        apply rtc_inv_r in Hrtc as [->|(z & Haz & Hzb)]; [done|].
        assert (z = p) as ->.
        { destruct tree as [Hup _]. apply (Hup z p b); try done.
          eapply rtc_trans; [exact Hra|exact Haz]. }
        by apply (no_cycle p a). }
      destruct (chain_order x1 x2 y) as [H|H]; try done.
      * by apply (Hback x1 x2).
      * by apply (Hback x2 x1).
Qed.

(** C1, as amended.  When the links among the reachable descriptors are
    acyclic and form a tree, the worklist loop ends, and its log holds every
    descriptor that is reachable and on disk, each exactly once.  (The loop
    keeps no visited set: descriptors that declare each other keep it
    running.) *)
Theorem walk_visits_once :
  exists fuel st,
    loop fuel init = Some st
    ∧ (forall q, q ∈ Walk.visited st <-> reachable q ∧ q ∈ disk)
    ∧ NoDup (Walk.visited st).
Proof.
  destruct (loop_visit (S (rank root)) root) with
    (rest := @nil Path) (m := (∅ : gmap string string)) (v := @nil Path)
    as (k & m' & E).
  { apply rtc_refl. }
  { intros _. lia. }
  exists k, (State [] m' (visit (S (rank root)) root)).
  split; [|split].
  - specialize (E 0). rewrite Nat.add_0_r in E.
    unfold Walk.init. fold root. rewrite E. apply loop_done.
  - intros q. cbn [Walk.visited]. split.
    + by intros ?%visit_sound.
    + intros [Hq Hd]. apply visit_complete; [apply rtc_refl|lia|done|done].
  - cbn [Walk.visited]. apply visit_NoDup. apply rtc_refl.
Qed.

End Tree.

(** Without the tree shape the loop still ends and still reaches every
    descriptor; it parses a descriptor once for every chain of links that
    leads to it. *)
Lemma walk_terminates :
  exists fuel st,
    loop fuel init = Some st
    ∧ Walk.visited st = visit (S (rank root)) root
    ∧ (forall q, q ∈ Walk.visited st <-> reachable q ∧ q ∈ disk).
Proof.
  destruct (loop_visit (S (rank root)) root) with
    (rest := @nil Path) (m := (∅ : gmap string string)) (v := @nil Path)
    as (k & m' & E).
  { apply rtc_refl. }
  { intros _. lia. }
  exists k, (State [] m' (visit (S (rank root)) root)).
  split; [|split; [done|]].
  - specialize (E 0). rewrite Nat.add_0_r in E.
    unfold Walk.init. fold root. rewrite E. apply loop_done.
  - intros q. cbn [Walk.visited]. split.
    + by intros ?%visit_sound.
    + intros [Hq Hd]. apply visit_complete; [apply rtc_refl|lia|done|done].
Qed.

End Ranked.

End WalkFacts.

(** *** The sample walks *)

Import Samples.

Lemma flat_link (p c : Path) :
  Walk.link flat_parse cycle_disk proj p c ->
  p = under ["Rules.mk"] ∧ (c = under ["a"; "Rules.mk"] ∨ c = under ["b"; "Rules.mk"]).
Proof.
  intros [_ Hc]. unfold Walk.children, flat_parse, parse_table in Hc.
  repeat case_bool_decide; subst; simpl in Hc.
  - split; [done|].
    apply elem_of_cons in Hc as [->|Hc]; [by left|].
    apply elem_of_cons in Hc as [->|Hc]; [by right|].
    by apply elem_of_nil in Hc.
  - by apply elem_of_nil in Hc.
  - by apply elem_of_nil in Hc.
  - by apply elem_of_nil in Hc.
Qed.

Lemma flat_ranked : Walk.ranked flat_parse cycle_disk proj flat_rank.
Proof.
  intros p c _ [-> [-> | ->]]%flat_link _; vm_compute; lia.
Qed.

Lemma flat_tree : Walk.tree_like flat_parse cycle_disk proj.
Proof.
  split.
  - intros p1 p2 c _ _ [-> _]%flat_link [-> _]%flat_link _. done.
  - intros p _ _. unfold Walk.children, flat_parse, parse_table.
    repeat case_bool_decide; subst; on_disk.
Qed.

Lemma walk_visits_once_witness :
  Walk.ranked flat_parse cycle_disk proj flat_rank
  ∧ Walk.tree_like flat_parse cycle_disk proj
  ∧ exists fuel st,
      Walk.loop flat_parse cycle_disk proj fuel (Walk.init proj) = Some st
      ∧ (forall q, q ∈ Walk.visited st
           <-> Walk.reachable flat_parse cycle_disk proj q ∧ q ∈ cycle_disk)
      ∧ NoDup (Walk.visited st).
Proof.
  split; [exact flat_ranked|]. split; [exact flat_tree|].
  exact (walk_visits_once flat_parse cycle_disk proj flat_rank flat_ranked flat_tree).
Defined.

(** With [a] and [b] declaring each other, the worklist is never empty. *)
Lemma cycle_spins (fuel : nat) :
  forall m v,
    Walk.loop cycle_parse cycle_disk proj fuel
      (Walk.Build_state [under ["a"; "Rules.mk"]] m v) = None
    ∧ Walk.loop cycle_parse cycle_disk proj fuel
      (Walk.Build_state [under ["b"; "Rules.mk"]] m v) = None.
Proof.
  induction fuel as [|fuel IH]; intros m v; [done|].
  split; rewrite loop_step, iteration_present by on_disk.
  - assert (E : (List.rev (Walk.children cycle_parse proj (under ["a"; "Rules.mk"]))
                 ++ [])%list = [under ["b"; "Rules.mk"]]) by (vm_compute; reflexivity).
    rewrite E. apply IH.
  - assert (E : (List.rev (Walk.children cycle_parse proj (under ["b"; "Rules.mk"]))
                 ++ [])%list = [under ["a"; "Rules.mk"]]) by (vm_compute; reflexivity).
    rewrite E. apply IH.
Qed.

(** C1, counterexample: on the project whose descriptors [a] and [b]
    declare each other, no number of iterations ends the walk. *)
Lemma cycle_never_ends :
  ~ exists fuel, is_Some (Walk._read_rules_mks cycle_parse cycle_disk proj fuel).
Proof.
  intros [fuel [m H]]. unfold Walk._read_rules_mks in H.
  destruct fuel as [|fuel]; [discriminate|].
  unfold Walk.init in H. rewrite loop_step, iteration_present in H by on_disk.
  assert (E : (List.rev (Walk.children cycle_parse proj
                           (Walk.root proj)) ++ [])%list
              = [under ["a"; "Rules.mk"]]) by (vm_compute; reflexivity).
  unfold Walk.root in E. rewrite E in H.
  destruct (cycle_spins fuel
    (Walk.record_descriptor ∅ (cycle_parse (proj // "Rules.mk")))
    ([] ++ [proj // "Rules.mk"])%list) as [Ha _].
  rewrite Ha in H. discriminate.
Qed.

(** A descriptor declared twice is parsed twice: the diamond's [b]. *)
Example diamond_visits_twice :
  Walk.visited <$> Walk.loop diamond_parse cycle_disk proj 4 (Walk.init proj)
  = Some [under ["Rules.mk"]; under ["b"; "Rules.mk"];
          under ["a"; "Rules.mk"]; under ["b"; "Rules.mk"]].
Proof. vm_compute. reflexivity. Qed.

(** *** What the walk records, and where it looks *)

Section WalkMap.

Variable from_file : Path -> RulesMk.
Variable disk : Disk.
Variable src_dir : Path.

Local Abbreviation loop := (Walk.loop from_file disk src_dir).
Local Abbreviation iteration := (Walk.iteration from_file disk src_dir).
Local Abbreviation init := (Walk.init src_dir).
Local Abbreviation State := Walk.Build_state.

Lemma record_sources_lookup (srcs : list string) :
  forall (m : gmap string string) (target k v : string),
  Walk.record_sources m target srcs !! k = Some v ->
  m !! k = Some v ∨ (k ∈ srcs ∧ v = target).
Proof.
  induction srcs as [|s srcs IH]; intros m target k v H; [by left|].
  apply IH in H as [H|[H ->]].
  - destruct (decide (s = k)) as [->|Hne].
    + rewrite lookup_insert_eq in H. injection H as <-. right. split; [left|done].
    + rewrite lookup_insert_ne in H by done. by left.
  - right. split; [by right|done].
Qed.

Lemma record_targets_lookup (ts : list (string * list string)) :
  forall (m : gmap string string) (k v : string),
  Walk.record_targets m ts !! k = Some v ->
  m !! k = Some v ∨ exists src_list, (v, src_list) ∈ ts ∧ k ∈ src_list.
Proof.
  induction ts as [|[t srcs] ts IH]; intros m k v H; [by left|].
  apply IH in H as [H|(l & Hl & Hk)].
  - apply record_sources_lookup in H as [H|[Hk ->]]; [by left|].
    right. exists srcs. split; [left|done].
  - right. exists l. split; [by right|done].
Qed.

Lemma record_descriptor_dir (m : gmap string string) (rm : RulesMk) :
  Walk.record_descriptor m rm !! PathLib.name (containing_dir rm)
  = Some ("dir_" ++ PathLib.name (containing_dir rm)).
Proof. unfold Walk.record_descriptor. apply lookup_insert_eq. Qed.

Lemma iteration_recorded (p : Path) (rest : list Path)
    (m : gmap string string) (v : list Path) :
  Walk.recorded from_file (State (p :: rest) m v) ->
  Walk.recorded from_file (iteration p rest m v).
Proof.
  intros Hrec. unfold Walk.iteration.
  destruct (decide (p ∈ disk)) as [Hin|Hout]; [|exact Hrec].
  intros k x. cbn [Walk.map_to_targets Walk.visited].
  unfold Walk.record_descriptor.
  destruct (decide (PathLib.name (containing_dir (from_file p)) = k)) as [<-|Hne].
  - rewrite lookup_insert_eq. intros [= <-]. exists p.
    split; [apply elem_of_app; right; left|]. left. by split.
  - rewrite lookup_insert_ne by done.
    intros [H|(l & Hl & Hk)]%record_targets_lookup.
    + destruct (Hrec k x H) as (q & Hq & Hqe). exists q.
      split; [apply elem_of_app; by left|done].
    + exists p. split; [apply elem_of_app; right; left|].
      right. by exists l.
Qed.

Lemma loop_recorded (fuel : nat) :
  forall st st', Walk.recorded from_file st -> loop fuel st = Some st' ->
  Walk.recorded from_file st'.
Proof.
  induction fuel as [|fuel IH]; intros [stack m v] st' Hrec; simpl.
  - destruct stack; [|discriminate]. by intros [= <-].
  - destruct stack as [|p rest]; [by intros [= <-]|].
    apply IH. by apply iteration_recorded.
Qed.

(** C2, as amended.  The directory entry of a descriptor has the bare base
    name of the directory as its key and the name with the prefix [dir_] as
    its target; it is written after the descriptor's file entries, so it is
    what the key holds afterwards.  Every entry of the returned map is the
    directory entry or a (target, source) entry of a parsed descriptor. *)
Theorem directory_entry_unprefixed :
  (forall m rm,
     Walk.record_descriptor m rm !! PathLib.name (containing_dir rm)
     = Some ("dir_" ++ PathLib.name (containing_dir rm)))
  ∧ (forall fuel st, loop fuel init = Some st ->
     forall k v, Walk.map_to_targets st !! k = Some v ->
     exists p, p ∈ Walk.visited st
       ∧ (Walk.dir_entry from_file p k v ∨ Walk.file_entry from_file p k v)).
Proof.
  split; [apply record_descriptor_dir|].
  intros fuel st H. eapply loop_recorded; [|exact H].
  intros k v Hk. cbn in Hk. by rewrite lookup_empty in Hk.
Qed.

Lemma subdir_rules_mks_named (rm : RulesMk) :
  Forall is_rules_mk (Walk.subdir_rules_mks src_dir rm).
Proof.
  unfold Walk.subdir_rules_mks. apply Forall_forall.
  intros p (s & -> & _)%list_elem_of_fmap. by eexists.
Qed.

Section OtherDisk.

Variable disk' : Disk.
Hypothesis same_descriptors :
  forall p, is_rules_mk p -> (p ∈ disk <-> p ∈ disk').

Lemma iteration_other_disk (p : Path) (rest : list Path)
    (m : gmap string string) (v : list Path) :
  is_rules_mk p ->
  iteration p rest m v = Walk.iteration from_file disk' src_dir p rest m v.
Proof.
  intros Hp. unfold Walk.iteration.
  destruct (decide (p ∈ disk)) as [Hin|Hout].
  - rewrite decide_True; [done|]. by apply same_descriptors.
  - rewrite decide_False; [done|]. intros ?. by apply Hout, same_descriptors.
Qed.

Lemma loop_other_disk (fuel : nat) :
  forall st, Forall is_rules_mk (Walk.rules_mks st) ->
  loop fuel st = Walk.loop from_file disk' src_dir fuel st.
Proof.
  induction fuel as [|fuel IH]; intros [stack m v] Hst; [done|].
  simpl. destruct stack as [|p rest]; [done|]. cbn in Hst.
  apply Forall_cons in Hst as [Hp Hrest].
  rewrite <- iteration_other_disk by done. apply IH.
  unfold Walk.iteration. destruct (decide (p ∈ disk)); cbn; [|done].
  apply Forall_app. split; [|done].
  apply Forall_forall. intros q Hq%elem_of_rev_1.
  revert q Hq. apply Forall_forall, subdir_rules_mks_named.
Qed.

End OtherDisk.

(** C4, as amended.  A popped descriptor path that does not exist is
    skipped and nothing else happens; and the walk reads the disk through
    the descriptor paths alone, so whether the declared subdirectory is
    there without a descriptor or is not there at all makes no difference
    to it. *)
Theorem missing_descriptor_skipped :
  (forall p rest m v, p ∉ disk -> iteration p rest m v = State rest m v)
  ∧ (forall disk' : Disk,
       (forall p, is_rules_mk p -> (p ∈ disk <-> p ∈ disk')) ->
       forall fuel,
         Walk._read_rules_mks from_file disk src_dir fuel
         = Walk._read_rules_mks from_file disk' src_dir fuel).
Proof.
  split.
  - intros p rest m v Hp. unfold Walk.iteration. by rewrite decide_False.
  - intros disk' Hsame fuel. unfold Walk._read_rules_mks.
    rewrite (loop_other_disk disk' Hsame); [done|].
    cbn. apply Forall_cons. split; [by eexists|constructor].
Qed.

Section OtherParser.

Variable from_file' : Path -> RulesMk.
Hypothesis same_subdirs : forall p, subdirs (from_file p) = subdirs (from_file' p).

Lemma loop_other_parser (fuel : nat) :
  forall stack m m' v,
  Walk.visited <$> loop fuel (State stack m v)
  = Walk.visited <$> Walk.loop from_file' disk src_dir fuel (State stack m' v).
Proof.
  induction fuel as [|fuel IH]; intros stack m m' v; simpl.
  - by destruct stack.
  - destruct stack as [|p rest]; [done|].
    unfold Walk.iteration. destruct (decide (p ∈ disk)); [|apply IH].
    unfold Walk.subdir_rules_mks. rewrite same_subdirs. apply IH.
Qed.

End OtherParser.

(** *** Which descriptors the walk parses *)

Lemma declared_mono (m m' : gmap string string) (stack stack' v v' : list Path)
    (q : Path) :
  (forall p, p ∈ v -> p ∈ v') ->
  Walk.declared from_file src_dir (State stack m v) q ->
  Walk.declared from_file src_dir (State stack' m' v') q.
Proof.
  intros Hsub (p & s & Hp & Hs & ->). exists p, s. split; [by apply Hsub|done].
Qed.

Lemma iteration_root_relative (p : Path) (rest : list Path)
    (m : gmap string string) (v : list Path) :
  Walk.root_relative from_file disk src_dir (State (p :: rest) m v) ->
  Walk.root_relative from_file disk src_dir (iteration p rest m v).
Proof.
  intros (I1 & I2 & I3 & I4). cbn [Walk.visited Walk.rules_mks] in I1, I2, I3, I4.
  unfold Walk.iteration. destruct (decide (p ∈ disk)) as [Hin|Hout];
    (split; [|split; [|split]]); cbn [Walk.visited Walk.rules_mks].
  - intros Hr. destruct (I1 Hr) as [H|[->|H]%elem_of_cons].
    + left. apply elem_of_app. by left.
    + left. apply elem_of_app. right. left.
    + right. apply elem_of_app. by right.
  - intros q (p0 & s & [Hp0|Hp0]%elem_of_app & Hs & ->) Hq.
    + destruct (I2 (src_dir // s // "Rules.mk")) as [H|[->|H]%elem_of_cons];
        [by exists p0, s|done| | |].
      * left. apply elem_of_app. by left.
      * left. apply elem_of_app. right. left.
      * right. apply elem_of_app. by right.
    + apply list_elem_of_singleton in Hp0 as ->.
      right. apply elem_of_app. left. apply elem_of_rev.
      unfold Walk.subdir_rules_mks. apply list_elem_of_fmap. by exists s.
  - intros q [[Hq|Hq]%elem_of_app|[Hq|Hq]%elem_of_app].
    + destruct (I3 q (or_introl Hq)) as [->|Hd]; [by left|right].
      eapply declared_mono; [|exact Hd]. intros x Hx. apply elem_of_app. by left.
    + apply list_elem_of_singleton in Hq as ->.
      destruct (I3 p (or_intror (list_elem_of_here p rest))) as [->|Hd];
        [by left|right].
      eapply declared_mono; [|exact Hd]. intros x Hx. apply elem_of_app. by left.
    + right. apply elem_of_rev_1 in Hq. unfold Walk.subdir_rules_mks in Hq.
      apply list_elem_of_fmap in Hq as (s & -> & Hs). exists p, s.
      split; [apply elem_of_app; right; left|done].
    + destruct (I3 q (or_intror (list_elem_of_further q p rest Hq))) as [->|Hd];
        [by left|right].
      eapply declared_mono; [|exact Hd]. intros x Hx. apply elem_of_app. by left.
  - intros q [Hq|Hq]%elem_of_app; [by apply I4|].
    by apply list_elem_of_singleton in Hq as ->.
  - intros Hr. destruct (I1 Hr) as [H|[Heq|H]%elem_of_cons];
      [by left|destruct Hout; by rewrite <- Heq|by right].
  - intros q Hd Hq. destruct (I2 q) as [H|[Heq|H]%elem_of_cons];
      [eapply declared_mono; [|exact Hd]; done|done|by left
      |destruct Hout; by rewrite <- Heq|by right].
  - intros q [Hq|Hq].
    + destruct (I3 q (or_introl Hq)) as [->|Hd]; [by left|right].
      eapply declared_mono; [|exact Hd]. done.
    + destruct (I3 q (or_intror (list_elem_of_further q p rest Hq))) as [->|Hd];
        [by left|right].
      eapply declared_mono; [|exact Hd]. done.
  - exact I4.
Qed.

Lemma loop_root_relative (fuel : nat) :
  forall st st', Walk.root_relative from_file disk src_dir st ->
  loop fuel st = Some st' ->
  Walk.root_relative from_file disk src_dir st'.
Proof.
  induction fuel as [|fuel IH]; intros [stack m v] st' Hinv; simpl.
  - destruct stack; [|discriminate]. by intros [= <-].
  - destruct stack as [|p rest]; [by intros [= <-]|].
    apply IH. by apply iteration_root_relative.
Qed.

Lemma init_root_relative : Walk.root_relative from_file disk src_dir init.
Proof.
  split; [|split; [|split]]; cbn [Walk.init Walk.visited Walk.rules_mks].
  - intros _. right. left.
  - intros q (p & s & Hp & _). by apply elem_of_nil in Hp.
  - intros q [Hq|Hq]; [by apply elem_of_nil in Hq|].
    apply list_elem_of_singleton in Hq as ->. by left.
  - intros q Hq. by apply elem_of_nil in Hq.
Qed.

(** C10.  What a finished walk has parsed: the root descriptor when it
    exists; for every subdirectory [subdir] that a parsed descriptor
    declares, the descriptor at [src_dir / subdir / "Rules.mk"] when that
    path exists; and nothing else, so that a descriptor is parsed only
    under the path [src_dir / subdir / "Rules.mk"] of some declared
    [subdir].  The directory of the declaring descriptor plays no part: the
    log of the walk is the same for any parser that returns the same
    subdirectory lists, and for a descriptor that lies elsewhere than
    [src_dir] the path that is looked up for a relative entry is not the
    one below the descriptor's own directory. *)
Theorem subdirs_resolved_against_src_dir :
  (forall fuel st, loop fuel init = Some st ->
     (Walk.root src_dir ∈ disk -> Walk.root src_dir ∈ Walk.visited st)
     ∧ (forall p subdir,
          p ∈ Walk.visited st -> subdir ∈ subdirs (from_file p) ->
          (src_dir // subdir // "Rules.mk") ∈ disk ->
          (src_dir // subdir // "Rules.mk") ∈ Walk.visited st)
     ∧ (forall q, q ∈ Walk.visited st ->
          q ∈ disk
          ∧ (q = Walk.root src_dir
             ∨ exists p subdir,
                 p ∈ Walk.visited st ∧ subdir ∈ subdirs (from_file p)
                 ∧ q = src_dir // subdir // "Rules.mk")))
  ∧ (forall from_file' : Path -> RulesMk,
       (forall p, subdirs (from_file p) = subdirs (from_file' p)) ->
       forall fuel,
         Walk.visited <$> loop fuel init
         = Walk.visited <$> Walk.loop from_file' disk src_dir fuel init)
  ∧ (forall rm subdir,
       containing_dir rm <> src_dir -> PathLib.is_absolute subdir = false ->
       (src_dir // subdir // "Rules.mk")
       <> (containing_dir rm // subdir // "Rules.mk")).
Proof.
  split; [|split].
  - intros fuel st Hloop.
    destruct (loop_root_relative fuel init st init_root_relative Hloop)
      as (I1 & I2 & I3 & I4).
    pose proof (loop_ends_empty from_file disk src_dir fuel init st Hloop) as He.
    rewrite He in I1, I2, I3.
    split; [|split].
    + intros Hr. destruct (I1 Hr) as [H|H]; [done|by apply elem_of_nil in H].
    + intros p s Hp Hs Hq.
      destruct (I2 (src_dir // s // "Rules.mk")) as [H|H];
        [by exists p, s|done|done|by apply elem_of_nil in H].
    + intros q Hq. split; [by apply I4|]. exact (I3 q (or_introl Hq)).
  - intros from_file' Hsame fuel. by apply loop_other_parser.
  - intros rm subdir Hne Hrel. rewrite !joinpath_Rules_mk.
    unfold PathLib.joinpath. rewrite Hrel.
    intros H. apply app_inj_tail in H as [H _].
    apply app_inv_tail in H. congruence.
Qed.

End WalkMap.

Lemma util_walk :
  Walk.loop util_parse util_disk proj 3 (Walk.init proj) = Some util_final.
Proof. vm_compute. reflexivity. Qed.

Lemma directory_entry_unprefixed_witness :
  Walk.loop util_parse util_disk proj 3 (Walk.init proj) = Some util_final
  ∧ Walk.map_to_targets util_final !! "util" = Some "dir_util"
  ∧ exists p, p ∈ Walk.visited util_final
      ∧ (Walk.dir_entry util_parse p "util" "dir_util"
         ∨ Walk.file_entry util_parse p "util" "dir_util").
Proof.
  assert (Hk : Walk.map_to_targets util_final !! "util" = Some "dir_util")
    by (vm_compute; reflexivity).
  split; [exact util_walk|]. split; [exact Hk|].
  exact (proj2 (directory_entry_unprefixed util_parse util_disk proj)
           3 util_final util_walk "util" "dir_util" Hk).
Defined.

(** C2, counterexample: the root of the [util] project builds [UTIL.PGM]
    from the source file [util] and has a subdirectory [util]; the
    directory's key is the bare name [util], and the returned map holds the
    directory's target under it, the file's entry being gone. *)
Lemma util_collision :
  Walk.file_entry util_parse (under ["Rules.mk"]) "util" "UTIL.PGM"
  ∧ PathLib.name (containing_dir (util_parse (under ["util"; "Rules.mk"]))) = "util"
  ∧ (Walk._read_rules_mks util_parse util_disk proj 3 ≫= lookup "util")
    = Some "dir_util".
Proof.
  split; [|split].
  - exists ["util"]. split; [vm_compute; left|left].
  - reflexivity.
  - vm_compute. reflexivity.
Qed.

Lemma ghost_same_descriptors (p : Path) :
  is_rules_mk p -> (p ∈ ghost_disk <-> p ∈ ghost_dir_disk).
Proof.
  intros [d ->]. unfold ghost_disk, ghost_dir_disk.
  rewrite !elem_of_union, !elem_of_singleton. split; [tauto|].
  intros [H|H]; [tauto|exfalso].
  destruct d as [|? [|? [|? [|? ?]]]]; discriminate.
Qed.

Lemma missing_descriptor_skipped_witness :
  (under ["ghost"; "Rules.mk"] ∉ ghost_disk)
  ∧ Walk.iteration ghost_parse ghost_disk proj (under ["ghost"; "Rules.mk"]) [] ∅ []
    = Walk.Build_state [] ∅ []
  ∧ Walk._read_rules_mks ghost_parse ghost_disk proj 2
    = Walk._read_rules_mks ghost_parse ghost_dir_disk proj 2.
Proof.
  assert (H : under ["ghost"; "Rules.mk"] ∉ ghost_disk) by off_disk.
  split; [exact H|]. split.
  - exact (proj1 (missing_descriptor_skipped ghost_parse ghost_disk proj)
             (under ["ghost"; "Rules.mk"]) [] ∅ [] H).
  - exact (proj2 (missing_descriptor_skipped ghost_parse ghost_disk proj)
             ghost_dir_disk ghost_same_descriptors 2).
Defined.

(** C4, counterexample: the root declares the subdirectory [ghost], no path
    [ghost] exists, and both the walk and the constructor return normally. *)
Lemma ghost_reference_not_fatal :
  "ghost" ∈ subdirs (ghost_parse (proj // "Rules.mk"))
  ∧ ((proj // "ghost") ∉ ghost_disk)
  ∧ (map_to_list <$> Walk._read_rules_mks ghost_parse ghost_disk proj 2)
    = Some [("hello.rpgle", "HELLO.PGM"); ("proj", "dir_proj")]
  ∧ (match BuildEnv.__init__ (sample_ext ghost_parse) 2 (world_of ghost_disk)
             tmp [] [] "" None with
     | Some (_, Ok self) => Some (BuildEnv.targets self)
     | _ => None
     end) = Some ["all"].
Proof.
  split; [vm_compute; left|]. split; [off_disk|].
  split; vm_compute; reflexivity.
Qed.

Lemma nested_same_subdirs (p : Path) :
  subdirs (nested_parse p) = subdirs (relocated nested_parse p).
Proof. reflexivity. Qed.

(** In the nested project [a] declares [b]; the walk looks for
    [/proj/b/Rules.mk] and never parses [/proj/a/b/Rules.mk]. *)
Lemma nested_walk :
  Walk.loop nested_parse nested_disk proj 3 (Walk.init proj) = Some nested_final.
Proof. vm_compute. reflexivity. Qed.

Lemma subdirs_resolved_against_src_dir_witness :
  Walk.loop nested_parse nested_disk proj 3 (Walk.init proj) = Some nested_final
  ∧ under ["Rules.mk"] ∈ Walk.visited nested_final
  ∧ (proj // "a" // "Rules.mk") ∈ Walk.visited nested_final
  ∧ ((proj // "b" // "Rules.mk") ∈ nested_disk ->
     (proj // "b" // "Rules.mk") ∈ Walk.visited nested_final)
  ∧ (under ["a"; "b"; "Rules.mk"] ∈ nested_disk
     ∧ under ["a"; "b"; "Rules.mk"] ∉ Walk.visited nested_final)
  ∧ (proj // "b" // "Rules.mk") <> (under ["a"] // "b" // "Rules.mk").
Proof.
  destruct (subdirs_resolved_against_src_dir nested_parse nested_disk proj)
    as (H1 & _ & H3).
  destruct (H1 3 nested_final nested_walk) as (R1 & R2 & _).
  assert (Hroot : under ["Rules.mk"] ∈ Walk.visited nested_final).
  { apply R1. on_disk. }
  assert (Ha : (proj // "a" // "Rules.mk") ∈ Walk.visited nested_final).
  { apply (R2 (under ["Rules.mk"]) "a" Hroot); [vm_compute; left|on_disk]. }
  split; [exact nested_walk|]. split; [exact Hroot|]. split; [exact Ha|].
  split; [|split; [split; [on_disk|off_disk]|]].
  - apply (R2 (proj // "a" // "Rules.mk") "b" Ha). vm_compute. left.
  - apply (H3 (nested_parse (under ["a"; "Rules.mk"])) "b"); [|reflexivity].
    vm_compute. discriminate.
Defined.

(** ** Include-path rendering *)

Lemma append_cons (x : ascii) (a b : string) :
  String x a ++ b = String x (a ++ b).
Proof. reflexivity. Qed.


Lemma append_assoc (a b c : string) : (a ++ b) ++ c = a ++ (b ++ c).
Proof.
  induction a as [|x a IH]; [done|]. by rewrite !append_cons, IH.
Qed.

Lemma append_nil_r (a : string) : a ++ "" = a.
Proof. induction a as [|x a IH]; [done|]. by rewrite append_cons, IH. Qed.




(** ** Decoded text: splitting and searching *)

Section StrFacts.

Local Abbreviation nsp := (forallb (fun c => negb (c =? 32)%N)).
Local Abbreviation nws := (forallb (fun c => negb (UStr.isspace c))).



Lemma is_word_not_empty (s : ustr) : UStr.is_word s = true -> s <> [].
Proof. by destruct s. Qed.

(** *** [split] *)

Lemma split_ws_cons (c : N) (s cur : ustr) :
  UStr.split_ws (c :: s) cur
  = if UStr.isspace c
    then match cur with
         | [] => UStr.split_ws s []
         | _ => cur :: UStr.split_ws s []
         end
    else UStr.split_ws s (cur ++ [c])%list.
Proof. reflexivity. Qed.





Lemma split_ws_pending (s : ustr) :
  forall cur, cur <> [] -> 1 <= length (UStr.split_ws s cur).
Proof.
  induction s as [|c s IH]; intros cur Hcur.
  - destruct cur; [done|]. cbn. lia.
  - rewrite split_ws_cons. destruct (UStr.isspace c).
    + destruct cur; [done|]. cbn [length]. lia.
    + apply IH. by destruct cur.
Qed.

Lemma split_ws_one (a : ustr) :
  forall c r cur, UStr.isspace c = false ->
  1 <= length (UStr.split_ws (a ++ c :: r)%list cur).
Proof.
  induction a as [|x a IH]; intros c r cur Hc.
  - cbn [app]. rewrite split_ws_cons, Hc. apply split_ws_pending. by destruct cur.
  - rewrite <- app_comm_cons, split_ws_cons. destruct (UStr.isspace x).
    + destruct cur; [by apply IH|]. cbn [length]. lia.
    + by apply IH.
Qed.

Lemma split_ws_two (a : ustr) :
  forall c c2 r cur, UStr.isspace c = false -> UStr.isspace c2 = false ->
  2 <= length (UStr.split_ws (a ++ c :: 32%N :: c2 :: r)%list cur).
Proof.
  induction a as [|x a IH]; intros c c2 r cur Hc Hc2.
  - cbn [app]. rewrite split_ws_cons, Hc, split_ws_cons.
    change (UStr.isspace 32) with true. cbv iota.
    pose proof (split_ws_one [] c2 r [] Hc2) as H. cbn [app] in H.
    destruct (cur ++ [c])%list eqn:E; [by destruct cur|].
    cbn [length]. lia.
  - rewrite <- app_comm_cons, split_ws_cons. destruct (UStr.isspace x).
    + destruct cur; [by apply IH|].
      pose proof (IH c c2 r [] Hc Hc2). cbn [length]. lia.
    + by apply IH.
Qed.

(** *** [in] *)

Lemma prefix_cons (a b : N) (s1 s2 : ustr) :
  UStr.prefix (a :: s1) (b :: s2) = (a =? b)%N && UStr.prefix s1 s2.
Proof. reflexivity. Qed.


Lemma prefix_decomp (m : ustr) :
  forall s, UStr.prefix m s = true -> exists b, s = (m ++ b)%list.
Proof.
  induction m as [|x m IH]; intros s H; [by exists s|].
  destruct s as [|c s]; [discriminate H|].
  rewrite prefix_cons in H. apply andb_prop in H as [Hx H].
  apply N.eqb_eq in Hx as ->. destruct (IH s H) as [b ->]. by exists b.
Qed.

Lemma contains_eq (m s : ustr) :
  UStr.contains m s
  = UStr.prefix m s
    || match s with
       | [] => false
       | _ :: s' => UStr.contains m s'
       end.
Proof. by destruct s. Qed.




Lemma contains_decomp (m s : ustr) :
  UStr.contains m s = true -> exists a b, s = (a ++ m ++ b)%list.
Proof.
  induction s as [|c s IH]; rewrite contains_eq; intros H.
  - rewrite orb_false_r in H. apply prefix_decomp in H as [b ->]. by exists [], b.
  - apply orb_prop in H as [H|H].
    + apply prefix_decomp in H as [b ->]. by exists [], b.
    + destruct (IH H) as (a & b & ->). by exists (c :: a), b.
Qed.







End StrFacts.

(** ** Classification of the executor's output *)

Section Classification.

Local Abbreviation failed_marker := (UStr.of_string "Failed to create").
Local Abbreviation success_marker := (UStr.of_string "was created successfully!").
Local Abbreviation lit := UStr.of_string.




(** *** The handler on a line that decodes *)

Lemma failed_name_ok (line : ustr) :
  UStr.contains failed_marker line = true ->
  exists n, BuildEnv.failed_name line = Ok n.
Proof.
  intros (a & b & ->)%contains_decomp. unfold BuildEnv.failed_name, UStr.split.
  pose proof (split_ws_one a 70%N (lit "ailed to create" ++ b)%list [] eq_refl) as H.
  change (a ++ 70%N :: (lit "ailed to create" ++ b))%list
    with (a ++ failed_marker ++ b)%list in H.
  destruct (UStr.split_ws (a ++ failed_marker ++ b)%list []) as [|w ws] eqn:E;
    [cbn in H; lia|].
  destruct (List.rev (w :: ws)) as [|y ys] eqn:Er.
  - apply (f_equal (@length ustr)) in Er. rewrite length_rev in Er. discriminate Er.
  - by eexists.
Qed.

Lemma success_name_ok (line : ustr) :
  UStr.contains success_marker line = true ->
  exists n, BuildEnv.success_name line = Ok n.
Proof.
  intros (a & b & ->)%contains_decomp. unfold BuildEnv.success_name, UStr.split.
  pose proof (split_ws_two (a ++ lit "wa")%list 115%N 99%N
                (lit "reated successfully!" ++ b)%list [] eq_refl eq_refl) as H.
  rewrite <- app_assoc in H.
  change (lit "wa" ++ 115%N :: 32%N :: 99%N :: (lit "reated successfully!" ++ b))%list
    with (success_marker ++ b)%list in H.
  destruct (UStr.split_ws (a ++ success_marker ++ b)%list [])
    as [|w [|w2 ws]]; cbn in H; try lia. by eexists.
Qed.

Lemma classify_spec (self : BuildEnv.t) (line : ustr) :
  (BuildEnv.classify self line).2 = Ok tt
  ∧ BuildEnv.failed_targets (BuildEnv.classify self line).1
    = (BuildEnv.failed_targets self
       ++ if UStr.contains failed_marker line
          then match BuildEnv.failed_name line with
               | Ok n => [n]
               | Raise _ => []
               end
          else [])%list
  ∧ BuildEnv.success_targets (BuildEnv.classify self line).1
    = (BuildEnv.success_targets self
       ++ if UStr.contains success_marker line
          then match BuildEnv.success_name line with
               | Ok n => [n]
               | Raise _ => []
               end
          else [])%list
  ∧ BuildEnv.build_vars_path (BuildEnv.classify self line).1
    = BuildEnv.build_vars_path self.
Proof.
  unfold BuildEnv.classify.
  destruct (UStr.contains failed_marker line) eqn:Hf;
    destruct (UStr.contains success_marker line) eqn:Hs.
  - destruct (failed_name_ok line Hf) as [n ->].
    by destruct (success_name_ok line Hs) as [n' ->].
  - destruct (failed_name_ok line Hf) as [n ->]. cbn. by rewrite app_nil_r.
  - destruct (success_name_ok line Hs) as [n' ->]. cbn. by rewrite app_nil_r.
  - cbn. by rewrite !app_nil_r.
Qed.

Lemma handle_decoded (self : BuildEnv.t) (b : string) :
  decodable b ->
  (BuildEnv.handle_make_output self (Bytes b)).2 = Ok tt
  ∧ BuildEnv.failed_targets (BuildEnv.handle_make_output self (Bytes b)).1
    = (BuildEnv.failed_targets self ++ failed_of b)%list
  ∧ BuildEnv.success_targets (BuildEnv.handle_make_output self (Bytes b)).1
    = (BuildEnv.success_targets self ++ success_of b)%list
  ∧ BuildEnv.build_vars_path (BuildEnv.handle_make_output self (Bytes b)).1
    = BuildEnv.build_vars_path self.
Proof.
  intros [line Hline]. unfold BuildEnv.handle_make_output, BuildEnv.decode_line,
    failed_of, success_of. rewrite Hline. apply classify_spec.
Qed.

Lemma handle_undecodable (self : BuildEnv.t) (b : string) :
  ~ decodable b ->
  BuildEnv.handle_make_output self (Bytes b) = (self, Raise UnicodeDecodeError).
Proof.
  intros Hb. unfold BuildEnv.handle_make_output, BuildEnv.decode_line.
  destruct (UStr.decode b) as [line|] eqn:E; [|done].
  destruct Hb. by exists line.
Qed.

Lemma decodable_dec (b : string) : decodable b ∨ ~ decodable b.
Proof.
  unfold decodable. destruct (UStr.decode b); [left; by eexists|right].
  by intros [? ?].
Qed.

(** Lines that all decode are all taken, and each adds its names. *)
Lemma handle_lines_decodable (lines : list string) :
  forall self, Forall decodable lines ->
  (BuildEnv.handle_lines self lines).2 = Ok tt
  ∧ BuildEnv.failed_targets (BuildEnv.handle_lines self lines).1
    = (BuildEnv.failed_targets self ++ flat_map failed_of lines)%list
  ∧ BuildEnv.success_targets (BuildEnv.handle_lines self lines).1
    = (BuildEnv.success_targets self ++ flat_map success_of lines)%list.
Proof.
  induction lines as [|b lines IH]; intros self Hall.
  - cbn. by rewrite !app_nil_r.
  - apply Forall_cons in Hall as [Hb Hall].
    destruct (handle_decoded self b Hb) as (H1 & H2 & H3 & _).
    cbn [BuildEnv.handle_lines flat_map].
    destruct (BuildEnv.handle_make_output self (Bytes b)) as [self1 [[]|e]];
      [|discriminate H1].
    cbn [fst] in H2, H3. destruct (IH self1 Hall) as (I1 & I2 & I3).
    by rewrite I1, I2, I3, H2, H3, !app_assoc.
Qed.

(** The first line that does not decode ends the calls of the handler. *)
Lemma handle_lines_undecodable (lines : list string) :
  forall self, ~ Forall decodable lines ->
  (BuildEnv.handle_lines self lines).2 = Raise UnicodeDecodeError.
Proof.
  induction lines as [|b lines IH]; intros self Hall.
  - destruct Hall. constructor.
  - cbn [BuildEnv.handle_lines]. destruct (decodable_dec b) as [Hb|Hb].
    + destruct (handle_decoded self b Hb) as (H1 & _).
      destruct (BuildEnv.handle_make_output self (Bytes b)) as [self1 [[]|e]];
        [|discriminate H1].
      apply IH. intros H. apply Hall. by constructor.
    + by rewrite handle_undecodable.
Qed.

(** The lists of targets only grow, and the path of the variable file
    stays, whatever the lines. *)
Lemma handle_lines_grows (lines : list string) :
  forall self,
  (exists l1 l2,
     BuildEnv.failed_targets (BuildEnv.handle_lines self lines).1
     = (BuildEnv.failed_targets self ++ l1)%list
     ∧ BuildEnv.success_targets (BuildEnv.handle_lines self lines).1
       = (BuildEnv.success_targets self ++ l2)%list)
  ∧ BuildEnv.build_vars_path (BuildEnv.handle_lines self lines).1
    = BuildEnv.build_vars_path self.
Proof.
  induction lines as [|b lines IH]; intros self.
  - split; [|done]. exists [], []. cbn. by rewrite !app_nil_r.
  - cbn [BuildEnv.handle_lines]. destruct (decodable_dec b) as [Hb|Hb].
    + destruct (handle_decoded self b Hb) as (H1 & H2 & H3 & H4).
      destruct (BuildEnv.handle_make_output self (Bytes b)) as [self1 [[]|e]];
        [|discriminate H1].
      cbn [fst] in H2, H3, H4. destruct (IH self1) as [(l1 & l2 & I1 & I2) I3].
      split; [|by rewrite I3].
      exists (failed_of b ++ l1)%list, (success_of b ++ l2)%list.
      by rewrite I1, I2, H2, H3, !app_assoc.
    + rewrite handle_undecodable by done. split; [|done].
      exists [], []. cbn. by rewrite !app_nil_r.
Qed.

Lemma handle_lines_path (lines : list string) (self : BuildEnv.t) :
  BuildEnv.build_vars_path (BuildEnv.handle_lines self lines).1
  = BuildEnv.build_vars_path self.
Proof. apply handle_lines_grows. Qed.

Lemma all_decodable_dec (lines : list string) :
  Forall decodable lines ∨ ~ Forall decodable lines.
Proof.
  induction lines as [|b lines IH]; [left; constructor|].
  destruct (decodable_dec b) as [Hb|Hb]; [|right; by intros [? _]%Forall_cons].
  destruct IH as [IH|IH]; [left; by constructor|right].
  by intros [_ ?]%Forall_cons.
Qed.

Lemma handle_lines_result (lines : list string) (self : BuildEnv.t) :
  (BuildEnv.handle_lines self lines).2 = Ok tt
  ∨ (BuildEnv.handle_lines self lines).2 = Raise UnicodeDecodeError.
Proof.
  destruct (all_decodable_dec lines) as [Hd|Hd].
  - left. by apply handle_lines_decodable.
  - right. by apply handle_lines_undecodable.
Qed.

Lemma make_result (w : World) (self : BuildEnv.t) (exec : Execution) (b : bool) :
  (BuildEnv.make w self exec).2 = Ok b ->
  b = match BuildEnv.failed_targets (BuildEnv.make w self exec).1.2 with
      | [] => true
      | _ => false
      end.
Proof.
  unfold BuildEnv.make. destruct exec as [lines rc|lines]; [|discriminate].
  destruct (BuildEnv.handle_lines self lines) as [self1 [[]|e]]; simpl;
    try discriminate.
  destruct (BuildEnv._post_make _ self1) as [w4 [[]|e]]; simpl; [|discriminate].
  by intros [= <-].
Qed.

Lemma unlink_all_result (w : World) (l : list Path) :
  (BuildEnv.unlink_all w l).2 = Ok tt
  ∨ exists p, (BuildEnv.unlink_all w l).2 = Raise (FileNotFoundError p).
Proof.
  revert w. induction l as [|p l IH]; intros w; [by left|].
  simpl. unfold BuildEnv.unlink. destruct (BuildEnv.exists_ w p).
  - apply IH.
  - right. by exists p.
Qed.

(** The markers are matched as written: a line in lower case is not a
    failure line. *)
Example lowercase_marker_ignored :
  BuildEnv.handle_make_output sample_self (Bytes "failed to create HELLO.PGM!")
  = (sample_self, Ok tt).
Proof. vm_compute. reflexivity. Qed.

(** [split()] cuts at the no-break space U+00A0 (bytes 0xC2 0xA0) too: of a
    name with one inside, the part after it is recorded. *)
Example no_break_space_splits :
  failed_of ("Failed to create A" ++ String (ascii_of_nat 194)
               (String (ascii_of_nat 160) "B!"))
  = [UStr.of_string "B"].
Proof. vm_compute. reflexivity. Qed.

(** A byte that is no UTF-8 makes the handler raise. *)
Example undecodable_line_raises :
  BuildEnv.handle_make_output sample_self
    (Bytes ("Failed to create " ++ String (ascii_of_nat 255) "!"))
  = (sample_self, Raise UnicodeDecodeError).
Proof. vm_compute. reflexivity. Qed.

End Classification.

(** ** Construction and life cycle *)

Section Lifecycle.

Variable ext : Externals.

Lemma lookup_srcs_missing (target_maps : gmap string string) (srcs : list string) :
  (exists src, src ∈ srcs ∧ target_maps !! src = None) ->
  exists src, BuildEnv.lookup_srcs target_maps srcs = Raise (KeyError src)
    ∧ src ∈ srcs ∧ target_maps !! src = None.
Proof.
  induction srcs as [|s srcs IH]; intros (src & Hin & Hnone).
  - by apply elem_of_nil in Hin.
  - simpl. destruct (target_maps !! s) as [t|] eqn:Hs.
    + apply elem_of_cons in Hin as [->|Hin]; [congruence|].
      destruct IH as (src' & -> & Hin' & Hnone'); [by exists src|].
      exists src'. split; [done|]. split; [by right|done].
    + exists s. split; [done|]. split; [left|done].
Qed.

Lemma choose_targets_missing (target_maps : gmap string string)
    (srcs : list string) :
  (exists src, src ∈ srcs ∧ target_maps !! src = None) ->
  exists src, BuildEnv.choose_targets target_maps [] srcs = Raise (KeyError src)
    ∧ src ∈ srcs ∧ target_maps !! src = None.
Proof.
  intros H. destruct (lookup_srcs_missing _ _ H) as (src & Hl & Hin & Hnone).
  exists src. split; [|done]. unfold BuildEnv.choose_targets.
  destruct srcs; [by apply elem_of_nil in Hin|done].
Qed.

Lemma unlink_commands (w : World) (p : Path) :
  commands (BuildEnv.unlink w p).1 = commands w.
Proof. unfold BuildEnv.unlink. by destruct (BuildEnv.exists_ w p). Qed.

(** C8.  When the walk has returned the target map and some requested
    source file has no entry in it, and no targets were given, the
    constructor raises [KeyError] for such a source (this is the error the
    specification calls UnknownTargetError), and the whole invocation ends
    with that error without a command having been handed to [run_command].
    With neither targets nor sources, the targets of the constructed
    environment are the single goal [all]. *)
Theorem unknown_source_fails :
  (forall fuel w tmp srcs make_options over target_maps exec,
     Walk._read_rules_mks (RulesMk_from_file ext)
       (disk (BuildEnv.write_text w tmp "")) (cwd w) fuel = Some target_maps ->
     (exists src, src ∈ srcs ∧ target_maps !! src = None) ->
     exists w0 src,
       BuildEnv.__init__ ext fuel w tmp [] srcs make_options over
       = Some (w0, Raise (KeyError src))
       ∧ src ∈ srcs ∧ target_maps !! src = None
       ∧ exists w1,
           BuildEnv.invocation ext fuel w tmp [] srcs make_options over exec
           = Some (w1, Raise (KeyError src))
           ∧ commands w1 = commands w)
  ∧ (forall fuel w tmp make_options over w0 self,
       BuildEnv.__init__ ext fuel w tmp [] [] make_options over = Some (w0, Ok self) ->
       BuildEnv.targets self = ["all"]).
Proof.
  split.
  - intros fuel w tmp srcs make_options over target_maps exec Hwalk Hmiss.
    destruct (choose_targets_missing _ _ Hmiss) as (src & Hc & Hin & Hnone).
    exists (BuildEnv.write_text w tmp ""), src.
    assert (Hinit : BuildEnv.__init__ ext fuel w tmp [] srcs make_options over
                    = Some (BuildEnv.write_text w tmp "", Raise (KeyError src))).
    { unfold BuildEnv.__init__. cbv zeta. rewrite Hwalk, Hc. done. }
    split; [exact Hinit|]. split; [done|]. split; [done|].
    eexists. unfold BuildEnv.invocation. rewrite Hinit. split; [done|].
    unfold BuildEnv.__del__. by rewrite unlink_commands.
  - intros fuel w tmp make_options over w0 self. unfold BuildEnv.__init__.
    cbv zeta. destruct (Walk._read_rules_mks _ _ _ _); [|discriminate].
    cbn [BuildEnv.choose_targets].
    destruct (BuildEnv._create_build_vars _ _ _) as [w1 [[]|e]]; [|discriminate].
    by intros [= _ <-].
Qed.

End Lifecycle.

Lemma single_walk :
  Walk._read_rules_mks (RulesMk_from_file (sample_ext single_parse))
    (disk (BuildEnv.write_text (world_of single_disk) tmp ""))
    (cwd (world_of single_disk)) 2
  = Some single_map.
Proof. vm_compute. reflexivity. Qed.

Lemma unknown_source_fails_witness :
  exists w0 src,
    BuildEnv.__init__ (sample_ext single_parse) 2 (world_of single_disk) tmp
      [] ["hello.rpgle"; "missing.rpgle"] "" None
    = Some (w0, Raise (KeyError src))
    ∧ src ∈ ["hello.rpgle"; "missing.rpgle"] ∧ single_map !! src = None
    ∧ exists w1,
        BuildEnv.invocation (sample_ext single_parse) 2 (world_of single_disk)
          tmp [] ["hello.rpgle"; "missing.rpgle"] "" None (Exited [] 0%Z)
        = Some (w1, Raise (KeyError src))
        ∧ commands w1 = commands (world_of single_disk).
Proof.
  apply (proj1 (unknown_source_fails (sample_ext single_parse)) 2
           (world_of single_disk) tmp ["hello.rpgle"; "missing.rpgle"] "" None
           single_map (Exited [] 0%Z) single_walk).
  exists "missing.rpgle". split; [right; left|]. vm_compute. reflexivity.
Defined.

(** *** Temporary files *)

(** C3, the failing input.  On the project with one descriptor, when
    [run_command] raises, [make()] never reaches [_post_make]: the
    invocation ends with the descriptor copy [/proj/.Rules.mk.build] still
    on disk; only the variable file is removed, by [__del__]. *)
Theorem crash_leaves_descriptor_copy :
  leftovers (BuildEnv.invocation (sample_ext single_parse) 2
               (world_of single_disk) tmp [] [] "" None (Crashed []))
  = Some (true, false, Raise CommandError).
Proof. vm_compute. reflexivity. Qed.

(** The same invocation when the executor exits: nothing is left. *)
Example exit_leaves_nothing :
  leftovers (BuildEnv.invocation (sample_ext single_parse) 2
               (world_of single_disk) tmp [] [] "" None
               (Exited [failed_line "HELLO.PGM"] 2%Z))
  = Some (false, false, Ok false).
Proof. vm_compute. reflexivity. Qed.

(** And when the executor prints a line that is no UTF-8: the handler
    raises, [_post_make] is not reached, and the copy stays as well. *)
Example undecodable_output_leaves_descriptor_copy :
  leftovers (BuildEnv.invocation (sample_ext single_parse) 2
               (world_of single_disk) tmp [] [] "" None
               (Exited [String (ascii_of_nat 255) ""] 0%Z))
  = Some (true, false, Raise UnicodeDecodeError).
Proof. vm_compute. reflexivity. Qed.

(** C9, the failing input.  The list [tmp_files] belongs to the class:
    constructing a second environment appends to the list the first one
    reads, and [make()] on the first then unlinks the same copy twice and
    raises. *)
Theorem tmp_files_shared :
  two_environments
  = Some ([[".Rules.mk.build"]],
          [[".Rules.mk.build"]; [".Rules.mk.build"]],
          Raise (FileNotFoundError [".Rules.mk.build"])).
Proof. vm_compute. reflexivity. Qed.

(** *** Resolution on a tree with a gap *)

(** C5, the failing input.  The root declares [src/app], the walk parses
    [src/app/Rules.mk], and the resolution then looks up the variables of
    [src], a directory without a descriptor: [KeyError], and no environment
    is constructed. *)
Theorem gap_resolution_fails :
  (Walk.visited <$> Walk.loop gap_parse gap_disk proj 2 (Walk.init proj))
  = Some [under ["Rules.mk"]; under ["src"; "app"; "Rules.mk"]]
  ∧ Resolve.resolve (sample_ibmi []) {| tgt_ccsid := "37"; objlib := "MYLIB" |}
      [["src"; "app"; "Rules.mk"]; ["Rules.mk"]]
    = Raise (KeyError "src")
  ∧ snd <$> BuildEnv.__init__ (sample_ext gap_parse) 2 (world_of gap_disk)
              tmp [] [] "" None
    = Some (Raise (KeyError "src")).
Proof. repeat split; vm_compute; reflexivity. Qed.

(** *** Resolution when no directory is skipped *)

Section ResolveFacts.

Variable from_file : Path -> IBMiJson -> IBMiJson.
Variable root_vars : IBMiJson.

Local Abbreviation map_all := (Resolve.map_all from_file).
Local Abbreviation top_down := (Resolve.top_down from_file root_vars).

Lemma insert_by_depth_perm (x : Path) (l : list Path) :
  Resolve.insert_by_depth x l ≡ₚ x :: l.
Proof.
  induction l as [|y l IH]; simpl; [done|].
  destruct (Nat.leb (length x) (length y)); [done|].
  rewrite IH. apply Permutation_swap.
Qed.

Lemma sort_by_depth_perm (l : list Path) : Resolve.sort_by_depth l ≡ₚ l.
Proof.
  induction l as [|x l IH]; simpl; [done|].
  by rewrite insert_by_depth_perm, IH.
Qed.

Lemma insert_by_depth_sorted (x : Path) (l : list Path) :
  StronglySorted Resolve.by_depth l ->
  StronglySorted Resolve.by_depth (Resolve.insert_by_depth x l).
Proof.
  induction l as [|y l IH]; intros Hl; simpl.
  - repeat constructor.
  - apply StronglySorted_inv in Hl as [Hl Hy].
    destruct (Nat.leb_spec (length x) (length y)) as [Hle|Hgt].
    + constructor; [by constructor|]. constructor; [done|].
      eapply Forall_impl; [exact Hy|]. unfold Resolve.by_depth. intros; simpl in *; lia.
    + constructor; [by apply IH|].
      rewrite insert_by_depth_perm. constructor; [|done].
      unfold Resolve.by_depth. lia.
Qed.

(** The directories are processed in ascending order of depth. *)
Lemma sort_by_depth_sorted (l : list Path) :
  StronglySorted Resolve.by_depth (Resolve.sort_by_depth l).
Proof.
  induction l as [|x l IH]; simpl; [constructor|].
  by apply insert_by_depth_sorted.
Qed.

Lemma parent_shorter (d : Path) :
  d <> [] -> S (length (PathLib.parent d)) = length d.
Proof.
  intros Hd. destruct (exists_last Hd) as (q & x & ->).
  rewrite parent_snoc, length_app. simpl. lia.
Qed.

Lemma parent_neq (d : Path) : d <> [] -> PathLib.parent d <> d.
Proof. intros Hd He. apply parent_shorter in Hd. rewrite He in Hd. lia. Qed.

Lemma top_down_insert (m : gmap Path IBMiJson) (d : Path) (v : IBMiJson) :
  top_down m -> d <> [] -> m !! d = None -> m !! PathLib.parent d = Some v ->
  top_down (<[d := from_file (d // ".ibmi.json") v]> m).
Proof.
  intros [Hroot Hm] Hd Hnone Hv. split.
  - by rewrite lookup_insert_ne.
  - intros d' Hd' Hsome. destruct (decide (d = d')) as [<-|Hne].
    + exists v. rewrite lookup_insert_eq.
      rewrite lookup_insert_ne by (intros ?; by eapply parent_neq). done.
    + rewrite lookup_insert_ne in Hsome by done.
      destruct (Hm d' Hd' Hsome) as (v' & Hp & Hv').
      exists v'. rewrite !lookup_insert_ne; [done|done|congruence].
Qed.

Lemma map_all_top_down (l : list Path) :
  forall m : gmap Path IBMiJson,
  top_down m -> StronglySorted Resolve.by_depth l -> NoDup l ->
  (forall d, d ∈ l -> d <> [] -> m !! d = None) ->
  (forall d, d ∈ l -> d <> [] ->
     is_Some (m !! PathLib.parent d) ∨ PathLib.parent d ∈ l) ->
  exists R, map_all m l = Ok R ∧ top_down R
    ∧ (forall d, d ∈ l -> is_Some (R !! d))
    ∧ (forall d, is_Some (m !! d) -> R !! d = m !! d).
Proof.
  induction l as [|d l IH]; intros m Hm Hs Hnd Hfresh Hpar.
  - exists m. split; [done|]. split; [done|]. split; [|done].
    by intros d ?%elem_of_nil.
  - apply StronglySorted_inv in Hs as [Hs Hd].
    apply NoDup_cons in Hnd as [Hdl Hnd].
    simpl. unfold Resolve.map_ibmi_json_var.
    destruct (decide (d = [])) as [->|Hne].
    + destruct (IH m) as (R & HR & Htd & Hin & Hmono); try done.
      * intros d' Hd'. apply Hfresh. by right.
      * intros d' Hd' Hne'. destruct (Hpar d' ltac:(by right) Hne') as [H|H];
          [by left|].
        apply elem_of_cons in H as [->|H]; [|by right].
        left. destruct Hm as [-> _]. by eexists.
      * exists R. split; [done|]. split; [done|]. split; [|done].
        intros d' [->|Hd']%elem_of_cons; [|by apply Hin].
        rewrite Hmono; destruct Hm as [-> _]; by eexists.
    + assert (Hp : is_Some (m !! PathLib.parent d)).
      { destruct (Hpar d ltac:(left) Hne) as [H|H]; [done|exfalso].
        apply elem_of_cons in H as [H|H]; [by eapply parent_neq|].
        rewrite Forall_forall in Hd. specialize (Hd _ H).
        unfold Resolve.by_depth in Hd. apply parent_shorter in Hne. lia. }
      destruct Hp as [v Hv]. rewrite Hv.
      assert (Hnone : m !! d = None) by (apply Hfresh; [left|done]).
      destruct (IH (<[d := from_file (d // ".ibmi.json") v]> m))
        as (R & HR & Htd & Hin & Hmono); try done.
      * by apply top_down_insert.
      * intros d' Hd' Hne'. rewrite lookup_insert_ne by (intros ->; done).
        apply Hfresh; [by right|done].
      * intros d' Hd' Hne'. destruct (Hpar d' ltac:(by right) Hne') as [H|H].
        -- left. destruct (decide (d = PathLib.parent d')) as [<-|?].
           ++ rewrite lookup_insert_eq. by eexists.
           ++ by rewrite lookup_insert_ne.
        -- apply elem_of_cons in H as [->|H]; [|by right].
           left. rewrite lookup_insert_eq. by eexists.
      * exists R. split; [done|]. split; [done|]. split.
        -- intros d' [->|Hd']%elem_of_cons; [|by apply Hin].
           rewrite Hmono; rewrite lookup_insert_eq; by eexists.
        -- intros d' Hd'. assert (d <> d') by (intros <-; rewrite Hnone in Hd'; by destruct Hd').
           rewrite Hmono; rewrite lookup_insert_ne by done; done.
Qed.

(** When the parent of every directory with a descriptor holds a descriptor
    too, the resolution completes: every such directory gets its variables,
    the root from the project's values and every other one from its
    parent's variables. *)
Lemma resolve_parent_closed (rules_mk_paths : list Path) :
  NoDup (map PathLib.parent rules_mk_paths) ->
  Resolve.parent_closed (map PathLib.parent rules_mk_paths) ->
  exists R, Resolve.resolve from_file root_vars rules_mk_paths = Ok R
    ∧ top_down R
    ∧ forall d, d ∈ map PathLib.parent rules_mk_paths -> is_Some (R !! d).
Proof.
  intros Hnd Hpc. unfold Resolve.resolve, Resolve.subdirs_of.
  destruct (map_all_top_down
              (Resolve.sort_by_depth (map PathLib.parent rules_mk_paths))
              {[ [] := root_vars ]})
    as (R & HR & Htd & Hin & _).
  - split; [apply lookup_singleton_eq|].
    intros d Hd [x Hx]. rewrite lookup_singleton_ne in Hx by done. done.
  - apply sort_by_depth_sorted.
  - by rewrite sort_by_depth_perm.
  - intros d _ Hd. by rewrite lookup_singleton_ne.
  - intros d Hd Hne. rewrite sort_by_depth_perm in Hd.
    destruct (Hpc d Hd Hne) as [->|H].
    + left. rewrite lookup_singleton_eq. by eexists.
    + right. by rewrite sort_by_depth_perm.
  - exists R. split; [done|]. split; [done|].
    intros d Hd. apply Hin. by rewrite sort_by_depth_perm.
Qed.

End ResolveFacts.

(** The variables of a directory depend on the override files along its
    chain of parents only. *)
Lemma resolved_by_chain (f1 f2 : Path -> IBMiJson -> IBMiJson)
    (root_vars : IBMiJson) (R1 R2 : gmap Path IBMiJson) (d : Path) :
  Resolve.top_down f1 root_vars R1 -> Resolve.top_down f2 root_vars R2 ->
  is_Some (R1 !! d) -> is_Some (R2 !! d) ->
  (forall a v, a `prefix_of` d -> a <> [] ->
     f1 (a // ".ibmi.json") v = f2 (a // ".ibmi.json") v) ->
  R1 !! d = R2 !! d.
Proof.
  intros [Hr1 H1] [Hr2 H2]. induction d as [|x q IH] using rev_ind;
    intros Hs1 Hs2 Hf; [congruence|].
  assert (Hne : (q ++ [x])%list <> []) by (by destruct q).
  destruct (H1 _ Hne Hs1) as (v1 & Hp1 & ->).
  destruct (H2 _ Hne Hs2) as (v2 & Hp2 & ->).
  rewrite parent_snoc in Hp1, Hp2.
  assert (Hq : R1 !! q = R2 !! q).
  { apply IH; [by eexists|by eexists|].
    intros a v Ha Hane. apply Hf; [|done]. by apply prefix_app_r. }
  rewrite Hp1, Hp2 in Hq. injection Hq as ->.
  by rewrite Hf.
Qed.

(** * Further properties of the build environment *)

(** ** The walk: termination on acyclic links, and what the map holds *)

Section WalkMore.

Variable from_file : Path -> RulesMk.
Variable disk : Disk.
Variable src_dir : Path.

Local Abbreviation loop := (Walk.loop from_file disk src_dir).
Local Abbreviation iteration := (Walk.iteration from_file disk src_dir).
Local Abbreviation init := (Walk.init src_dir).
Local Abbreviation State := Walk.Build_state.

Lemma loop_fuel_unique (f1 f2 : nat) (st st1 st2 : Walk.state) :
  loop f1 st = Some st1 -> loop f2 st = Some st2 -> st1 = st2.
Proof.
  intros H1 H2.
  apply (loop_more_fuel from_file disk src_dir f1 f2) in H1.
  apply (loop_more_fuel from_file disk src_dir f2 f1) in H2.
  rewrite Nat.add_comm in H2. congruence.
Qed.

(** X1.  When the links among the reachable descriptors are acyclic, the
    walk ends, whatever else the links look like: some number of iterations
    gives a final state, every larger number gives the same state, and the
    descriptors parsed are exactly those that are reachable and on disk. *)
Theorem acyclic_walk_ends (rank : Path -> nat) :
  Walk.ranked from_file disk src_dir rank ->
  exists fuel st,
    (forall k, loop (fuel + k) init = Some st)
    ∧ (forall fuel' st', loop fuel' init = Some st' -> st' = st)
    ∧ Walk.rules_mks st = []
    ∧ (forall q, q ∈ Walk.visited st
         <-> Walk.reachable from_file disk src_dir q ∧ q ∈ disk).
Proof.
  intros Hr.
  destruct (walk_terminates from_file disk src_dir rank Hr)
    as (fuel & st & Hloop & _ & Hvis).
  exists fuel, st. split; [|split; [|split]].
  - intros k. by apply loop_more_fuel.
  - intros fuel' st' H'. eapply loop_fuel_unique; eauto.
  - eapply loop_ends_empty; eauto.
  - exact Hvis.
Qed.

(** *** Keys are never lost *)

Lemma record_sources_mono (srcs : list string) :
  forall (m : gmap string string) (target k : string),
  is_Some (m !! k) -> is_Some (Walk.record_sources m target srcs !! k).
Proof.
  induction srcs as [|s srcs IH]; intros m target k Hk; [done|].
  apply IH. destruct (decide (s = k)) as [->|].
  - rewrite lookup_insert_eq. by eexists.
  - by rewrite lookup_insert_ne.
Qed.

Lemma record_sources_frame (srcs : list string) :
  forall (m : gmap string string) (target k : string),
  k ∉ srcs -> Walk.record_sources m target srcs !! k = m !! k.
Proof.
  induction srcs as [|s srcs IH]; intros m target k Hk; [done|].
  apply not_elem_of_cons in Hk as [Hne Hk].
  unfold Walk.record_sources. simpl. fold (Walk.record_sources (<[s:=target]> m) target srcs).
  rewrite IH by done. by rewrite lookup_insert_ne.
Qed.

Lemma record_sources_in (srcs : list string) :
  forall (m : gmap string string) (target k : string),
  k ∈ srcs -> Walk.record_sources m target srcs !! k = Some target.
Proof.
  induction srcs as [|s srcs IH]; intros m target k Hk;
    [by apply elem_of_nil in Hk|].
  unfold Walk.record_sources. simpl. fold (Walk.record_sources (<[s:=target]> m) target srcs).
  destruct (decide (k ∈ srcs)) as [Hin|Hout]; [by apply IH|].
  rewrite record_sources_frame by done.
  apply elem_of_cons in Hk as [->|Hk]; [|done]. apply lookup_insert_eq.
Qed.

Lemma record_targets_app (m : gmap string string)
    (ts1 ts2 : list (string * list string)) :
  Walk.record_targets m (ts1 ++ ts2)
  = Walk.record_targets (Walk.record_targets m ts1) ts2.
Proof. unfold Walk.record_targets. apply foldl_app. Qed.

Lemma record_targets_mono (ts : list (string * list string)) :
  forall (m : gmap string string) (k : string),
  is_Some (m !! k) -> is_Some (Walk.record_targets m ts !! k).
Proof.
  induction ts as [|[t srcs] ts IH]; intros m k Hk; [done|].
  apply IH. by apply record_sources_mono.
Qed.

Lemma record_targets_frame (ts : list (string * list string)) :
  forall (m : gmap string string) (k : string),
  (forall t srcs, (t, srcs) ∈ ts -> k ∉ srcs) ->
  Walk.record_targets m ts !! k = m !! k.
Proof.
  induction ts as [|[t srcs] ts IH]; intros m k Hk; [done|].
  unfold Walk.record_targets. simpl.
  fold (Walk.record_targets (Walk.record_sources m t srcs) ts).
  rewrite IH.
  - apply record_sources_frame. apply (Hk t). left.
  - intros t' srcs' H'. apply (Hk t'). by right.
Qed.

(** X3.  Within one descriptor the last target that lists a source file is
    the one the file maps to, and a key that no target lists keeps what it
    had. *)
Theorem last_target_wins :
  (forall m ts1 t srcs ts2 k,
     k ∈ srcs -> (forall t' srcs', (t', srcs') ∈ ts2 -> k ∉ srcs') ->
     Walk.record_targets m (ts1 ++ (t, srcs) :: ts2) !! k = Some t)
  ∧ (forall m ts k,
       (forall t srcs, (t, srcs) ∈ ts -> k ∉ srcs) ->
       Walk.record_targets m ts !! k = m !! k).
Proof.
  split.
  - intros m ts1 t srcs ts2 k Hin Hlater.
    rewrite record_targets_app.
    change (Walk.record_targets (Walk.record_targets m ts1) ((t, srcs) :: ts2))
      with (Walk.record_targets
              (Walk.record_sources (Walk.record_targets m ts1) t srcs) ts2).
    rewrite record_targets_frame by done. by apply record_sources_in.
  - intros m ts k. apply record_targets_frame.
Qed.

Lemma record_descriptor_mono (m : gmap string string) (rm : RulesMk) (k : string) :
  is_Some (m !! k) -> is_Some (Walk.record_descriptor m rm !! k).
Proof.
  intros Hk. unfold Walk.record_descriptor.
  destruct (decide (PathLib.name (containing_dir rm) = k)) as [->|].
  - rewrite lookup_insert_eq. by eexists.
  - rewrite lookup_insert_ne by done. by apply record_targets_mono.
Qed.

Lemma record_descriptor_source (m : gmap string string) (rm : RulesMk)
    (t : string) (srcs : list string) (k : string) :
  (t, srcs) ∈ targets rm -> k ∈ srcs ->
  is_Some (Walk.record_descriptor m rm !! k).
Proof.
  intros Ht Hk. unfold Walk.record_descriptor.
  destruct (decide (PathLib.name (containing_dir rm) = k)) as [->|].
  - rewrite lookup_insert_eq. by eexists.
  - rewrite lookup_insert_ne by done.
    apply list_elem_of_split in Ht as (ts1 & ts2 & ->).
    rewrite record_targets_app.
    change (Walk.record_targets (Walk.record_targets m ts1) ((t, srcs) :: ts2))
      with (Walk.record_targets
              (Walk.record_sources (Walk.record_targets m ts1) t srcs) ts2).
    apply record_targets_mono. rewrite record_sources_in by done. by eexists.
Qed.

Lemma loop_covers (fuel : nat) :
  forall st st', Walk.covered from_file st -> loop fuel st = Some st' ->
  Walk.covered from_file st'.
Proof.
  induction fuel as [|fuel IH]; intros [stack m v] st' Hc; simpl.
  - destruct stack; [|discriminate]. by intros [= <-].
  - destruct stack as [|p rest]; [by intros [= <-]|]. apply IH.
    unfold Walk.iteration. destruct (decide (p ∈ disk)); [|exact Hc].
    intros q k. cbn [Walk.visited Walk.map_to_targets].
    intros [Hq|Hq]%elem_of_app Hk.
    + apply record_descriptor_mono. by apply (Hc q).
    + apply list_elem_of_singleton in Hq as ->.
      destruct Hk as [->|(t & srcs & Ht & Hk)].
      ++ rewrite record_descriptor_dir. by eexists.
      ++ by eapply record_descriptor_source.
Qed.

(** X2.  Nothing is ever removed from the map: when the walk has ended,
    the base name of the directory of every parsed descriptor is a key of
    the returned map, and so is every source file that any of its targets
    lists. *)
Theorem walk_keeps_keys (fuel : nat) (st : Walk.state) :
  loop fuel init = Some st ->
  forall p, p ∈ Walk.visited st ->
    is_Some (Walk.map_to_targets st
               !! PathLib.name (containing_dir (from_file p)))
    ∧ (forall t srcs k, (t, srcs) ∈ targets (from_file p) -> k ∈ srcs ->
         is_Some (Walk.map_to_targets st !! k)).
Proof.
  intros H p Hp.
  assert (Hc : Walk.covered from_file st).
  { eapply loop_covers; [|exact H]. intros q k Hq. by apply elem_of_nil in Hq. }
  split.
  - apply (Hc p); [done|]. by left.
  - intros t srcs k Ht Hk. apply (Hc p); [done|]. right. by exists t, srcs.
Qed.

(** X4.  A project without a descriptor in its root has an empty target
    map: the walk ends after one iteration, whatever descriptors lie in
    subdirectories. *)
Theorem no_root_descriptor_empty_map (fuel : nat) :
  (src_dir // "Rules.mk") ∉ disk ->
  Walk._read_rules_mks from_file disk src_dir (S fuel) = Some ∅.
Proof.
  intros H. unfold Walk._read_rules_mks, Walk.init.
  rewrite loop_step, iteration_missing by done. by rewrite loop_done.
Qed.

End WalkMore.

Lemma diamond_link (p c : Path) :
  Walk.link diamond_parse cycle_disk proj p c ->
  (p = under ["Rules.mk"]
   ∧ (c = under ["a"; "Rules.mk"] ∨ c = under ["b"; "Rules.mk"]))
  ∨ (p = under ["a"; "Rules.mk"] ∧ c = under ["b"; "Rules.mk"]).
Proof.
  intros [_ Hc]. unfold Walk.children, diamond_parse, parse_table in Hc.
  repeat case_bool_decide; subst; simpl in Hc.
  - left. split; [done|].
    apply elem_of_cons in Hc as [->|Hc]; [by left|].
    apply elem_of_cons in Hc as [->|Hc]; [by right|].
    by apply elem_of_nil in Hc.
  - right. split; [done|].
    apply elem_of_cons in Hc as [->|Hc]; [done|].
    by apply elem_of_nil in Hc.
  - by apply elem_of_nil in Hc.
  - by apply elem_of_nil in Hc.
Qed.

Lemma diamond_ranked : Walk.ranked diamond_parse cycle_disk proj diamond_rank.
Proof.
  intros p c _ [[-> [-> | ->]]|[-> ->]]%diamond_link _; vm_compute; lia.
Qed.

Lemma acyclic_walk_ends_witness :
  Walk.ranked diamond_parse cycle_disk proj diamond_rank
  ∧ exists fuel st,
      (forall k, Walk.loop diamond_parse cycle_disk proj (fuel + k)
                   (Walk.init proj) = Some st)
      ∧ (forall fuel' st',
           Walk.loop diamond_parse cycle_disk proj fuel' (Walk.init proj)
           = Some st' -> st' = st)
      ∧ Walk.rules_mks st = []
      ∧ (forall q, q ∈ Walk.visited st
           <-> Walk.reachable diamond_parse cycle_disk proj q ∧ q ∈ cycle_disk).
Proof.
  split; [exact diamond_ranked|].
  exact (acyclic_walk_ends diamond_parse cycle_disk proj diamond_rank
           diamond_ranked).
Defined.

Lemma walk_keeps_keys_witness :
  is_Some (Walk.map_to_targets util_final
             !! PathLib.name (containing_dir (util_parse (under ["Rules.mk"]))))
  ∧ (forall t srcs k,
       (t, srcs) ∈ targets (util_parse (under ["Rules.mk"])) -> k ∈ srcs ->
       is_Some (Walk.map_to_targets util_final !! k)).
Proof.
  apply (walk_keeps_keys util_parse util_disk proj 3 util_final util_walk).
  left.
Defined.

Lemma last_target_wins_witness :
  Walk.record_targets ∅
    ([("A.PGM", ["a.rpgle"; "common.rpgle"])]
       ++ ("B.PGM", ["b.rpgle"; "common.rpgle"]) :: [("C.PGM", ["c.rpgle"])])
    !! "common.rpgle"
  = Some "B.PGM".
Proof.
  apply (proj1 last_target_wins).
  - right. left.
  - intros t' srcs' [[= -> ->]|[]%elem_of_nil]%elem_of_cons.
    intros [[=]|[]%elem_of_nil]%elem_of_cons.
Defined.

Lemma no_root_descriptor_empty_map_witness :
  Walk._read_rules_mks flat_parse ({[ under ["a"; "Rules.mk"] ]} : Disk) proj 1
  = Some ∅.
Proof.
  apply (no_root_descriptor_empty_map flat_parse _ proj 0). off_disk.
Defined.

(** ** Construction: targets, side effects *)

Section InitMore.

Variable ext : Externals.

Lemma lookup_srcs_ok (tm : gmap string string) (srcs ts : list string) :
  BuildEnv.lookup_srcs tm srcs = Ok ts
  <-> Forall2 (fun s t => tm !! s = Some t) srcs ts.
Proof.
  revert ts. induction srcs as [|s srcs IH]; intros ts; simpl.
  - split; [intros [= <-]; constructor|by intros ->%Forall2_nil_inv_l].
  - destruct (tm !! s) as [t|] eqn:Hs.
    + destruct (BuildEnv.lookup_srcs tm srcs) as [ts'|e] eqn:Hl.
      * split.
        -- intros [= <-]. constructor; [done|]. by apply IH.
        -- intros (t' & ts'' & Ht & Hts & ->)%Forall2_cons_inv_l.
           apply IH in Hts. congruence.
      * split; [discriminate|].
        intros (t' & ts'' & Ht & Hts & ->)%Forall2_cons_inv_l.
        apply IH in Hts. discriminate.
    + split; [discriminate|].
      intros (t' & ts'' & Ht & _)%Forall2_cons_inv_l. congruence.
Qed.

Lemma lookup_srcs_raise (tm : gmap string string) (srcs : list string) (e : exn) :
  BuildEnv.lookup_srcs tm srcs = Raise e
  <-> exists l1 src l2, e = KeyError src ∧ srcs = (l1 ++ src :: l2)%list
        ∧ tm !! src = None ∧ Forall (fun s => is_Some (tm !! s)) l1.
Proof.
  revert e. induction srcs as [|s srcs IH]; intros e; simpl.
  - split; [discriminate|]. intros (l1 & src & l2 & _ & H & _). by destruct l1.
  - destruct (tm !! s) as [t|] eqn:Hs.
    + assert (Htail : (exists l1 src l2, e = KeyError src
                         ∧ (s :: srcs) = (l1 ++ src :: l2)%list
                         ∧ tm !! src = None
                         ∧ Forall (fun s => is_Some (tm !! s)) l1)
                      <-> BuildEnv.lookup_srcs tm srcs = Raise e).
      { rewrite IH. split.
        - intros (l1 & src & l2 & -> & H & Hnone & Hall).
          destruct l1 as [|x l1]; simpl in H; injection H as -> ->; [congruence|].
          apply Forall_cons in Hall as [_ Hall]. by exists l1, src, l2.
        - intros (l1 & src & l2 & -> & -> & Hnone & Hall).
          exists (s :: l1), src, l2. split; [done|]. split; [done|].
          split; [done|]. constructor; [by eexists|done]. }
      rewrite Htail.
      destruct (BuildEnv.lookup_srcs tm srcs) as [ts'|e']; [done|].
      split; congruence.
    + split.
      * intros [= <-]. exists [], s, srcs. by repeat split.
      * intros (l1 & src & l2 & -> & H & Hnone & Hall).
        destruct l1 as [|x l1]; simpl in H; injection H as -> ->; [done|].
        apply Forall_cons in Hall as [[? Hx] _]. congruence.
Qed.

(** X5.  Translating requested source files to targets gives the targets
    in the order of the request exactly when every source is a key of the
    map; otherwise it raises [KeyError] for the first requested source that
    is not a key. *)
Theorem lookup_srcs_spec (tm : gmap string string) (srcs : list string) :
  (forall ts, BuildEnv.lookup_srcs tm srcs = Ok ts
     <-> Forall2 (fun s t => tm !! s = Some t) srcs ts)
  ∧ (forall e, BuildEnv.lookup_srcs tm srcs = Raise e
       <-> exists l1 src l2, e = KeyError src ∧ srcs = (l1 ++ src :: l2)%list
             ∧ tm !! src = None ∧ Forall (fun s => is_Some (tm !! s)) l1).
Proof. split; intros; [apply lookup_srcs_ok|apply lookup_srcs_raise]. Qed.

(** X6.  Explicit targets win: when targets are given, the requested
    source files are not looked at, unknown ones included, and the
    constructed environment has the given targets. *)
Theorem explicit_targets_win (fuel : nat) (w : World) (tmp : Path)
    (targets srcs srcs' : list string) (make_options : string)
    (over : option Path) :
  targets <> [] ->
  BuildEnv.__init__ ext fuel w tmp targets srcs make_options over
  = BuildEnv.__init__ ext fuel w tmp targets srcs' make_options over
  ∧ (forall w' self,
       BuildEnv.__init__ ext fuel w tmp targets srcs make_options over
       = Some (w', Ok self) ->
       BuildEnv.targets self = targets).
Proof.
  intros Hne. destruct targets as [|t ts]; [done|]. split; [done|].
  intros w' self. unfold BuildEnv.__init__. cbv zeta.
  destruct (Walk._read_rules_mks _ _ _ _); [|discriminate].
  cbn [BuildEnv.choose_targets].
  destruct (BuildEnv._create_build_vars _ _ _) as [w1 [[]|e]]; [|discriminate].
  by intros [= _ <-].
Qed.

(** *** What [_create_build_vars] does to the world *)

Lemma absolute_same_cwd (w w' : World) (p : Path) :
  cwd w' = cwd w -> BuildEnv.absolute w' p = BuildEnv.absolute w p.
Proof. intros H. unfold BuildEnv.absolute. by rewrite H. Qed.

Lemma foldl_create (l : list Path) :
  forall w,
  cwd (foldl (BuildEnv.create_rules_mk_build ext) w l) = cwd w
  ∧ commands (foldl (BuildEnv.create_rules_mk_build ext) w l) = commands w
  ∧ tmp_files (foldl (BuildEnv.create_rules_mk_build ext) w l)
    = (tmp_files w ++ map descriptor_copy l)%list
  ∧ disk (foldl (BuildEnv.create_rules_mk_build ext) w l)
    = disk w ∪ list_to_set (map (fun p => BuildEnv.absolute w (descriptor_copy p)) l).
Proof.
  induction l as [|p l IH]; intros w; simpl.
  - split; [done|]. split; [done|]. split; [by rewrite app_nil_r|].
    by rewrite union_empty_r_L.
  - destruct (IH (BuildEnv.create_rules_mk_build ext w p)) as (H1 & H2 & H3 & H4).
    assert (E : map (fun p0 => BuildEnv.absolute
                (BuildEnv.create_rules_mk_build ext w p) (descriptor_copy p0)) l
              = map (fun p0 => BuildEnv.absolute w (descriptor_copy p0)) l).
    { apply map_ext. intros q. by apply absolute_same_cwd. }
    rewrite H1, H2, H3, H4, E.
    split; [done|]. split; [done|]. split.
    + change (tmp_files (BuildEnv.create_rules_mk_build ext w p))
        with (tmp_files w ++ [descriptor_copy p])%list.
      by rewrite <- app_assoc.
    + change (disk (BuildEnv.create_rules_mk_build ext w p))
        with (disk w ∪ {[BuildEnv.absolute w (descriptor_copy p)]}).
      by rewrite ?list_to_set_cons, union_assoc_L.
Qed.

(** X8.  Whether it returns or raises, [_create_build_vars] removes no
    file and runs no command; it writes a copy beside every descriptor that
    [rglob] finds and appends the copies to [tmp_files], one per descriptor
    and in that order.  When it returns, the variable file is on disk and
    its text starts with the header. *)
Theorem create_build_vars_effects (w w' : World) (self : BuildEnv.t)
    (r : result unit) :
  BuildEnv._create_build_vars ext w self = (w', r) ->
  cwd w' = cwd w
  ∧ commands w' = commands w
  ∧ disk w ⊆ disk w'
  ∧ tmp_files w'
    = (tmp_files w ++ map descriptor_copy (BuildEnv.rglob_rules_mk w))%list
  ∧ (forall p, p ∈ BuildEnv.rglob_rules_mk w ->
       BuildEnv.absolute w (descriptor_copy p) ∈ disk w')
  ∧ (r = Ok tt ->
     BuildEnv.absolute w (BuildEnv.build_vars_path self) ∈ disk w'
     ∧ exists s,
         text w' !! BuildEnv.absolute w (BuildEnv.build_vars_path self)
         = Some (BuildEnv.header ext self ++ s)).
Proof.
  unfold BuildEnv._create_build_vars. cbv zeta.
  destruct (foldl_create (BuildEnv.rglob_rules_mk w) w) as (H1 & H2 & H3 & H4).
  set (w1 := foldl (BuildEnv.create_rules_mk_build ext) w (BuildEnv.rglob_rules_mk w)) in *.
  assert (Hsub : disk w ⊆ disk w1) by (rewrite H4; apply union_subseteq_l).
  assert (Hcopy : forall p, p ∈ BuildEnv.rglob_rules_mk w ->
            BuildEnv.absolute w (descriptor_copy p) ∈ disk w1).
  { intros p Hp. rewrite H4. apply elem_of_union_r, elem_of_list_to_set.
    apply list_elem_of_fmap. by exists p. }
  assert (Hwrite : forall s,
    let w2 := BuildEnv.write_text w1 (BuildEnv.build_vars_path self) s in
    cwd w2 = cwd w ∧ commands w2 = commands w ∧ disk w ⊆ disk w2
    ∧ tmp_files w2 = (tmp_files w ++ map descriptor_copy (BuildEnv.rglob_rules_mk w))%list
    ∧ (forall p, p ∈ BuildEnv.rglob_rules_mk w ->
         BuildEnv.absolute w (descriptor_copy p) ∈ disk w2)
    ∧ BuildEnv.absolute w (BuildEnv.build_vars_path self) ∈ disk w2
    ∧ text w2 !! BuildEnv.absolute w (BuildEnv.build_vars_path self) = Some s).
  { intros s. cbn. rewrite (absolute_same_cwd w w1) by done.
    split; [done|]. split; [done|].
    split; [etrans; [exact Hsub|apply union_subseteq_l]|]. split; [done|].
    split; [intros p Hp; apply elem_of_union_l; by apply Hcopy|].
    split; [apply elem_of_union_r; by apply elem_of_singleton|].
    apply lookup_insert_eq. }
  destruct (Resolve.resolve _ _ _) as [dvm|e].
  - destruct (BuildEnv.all_subdir_lines _ _ _ _) as [s|e]; intros [= <- <-].
    + destruct (Hwrite (BuildEnv.header ext self ++ s))
        as (G1 & G2 & G3 & G4 & G5 & G6 & G7).
      do 5 (split; [done|]). intros _. split; [done|]. by exists s.
    + destruct (Hwrite (BuildEnv.header ext self))
        as (G1 & G2 & G3 & G4 & G5 & G6 & G7).
      do 5 (split; [done|]). discriminate.
  - intros [= <- <-]. do 5 (split; [done|]). discriminate.
Qed.

(** X7.  The constructor never hands a command to [run_command] and never
    removes a file; however it ends, the file that [mkstemp] made is on
    disk afterwards. *)
Theorem init_effects (fuel : nat) (w w' : World) (tmp : Path)
    (targets srcs : list string) (make_options : string) (over : option Path)
    (r : result BuildEnv.t) :
  BuildEnv.__init__ ext fuel w tmp targets srcs make_options over = Some (w', r) ->
  commands w' = commands w
  ∧ disk w ⊆ disk w'
  ∧ BuildEnv.absolute w tmp ∈ disk w'.
Proof.
  unfold BuildEnv.__init__. cbv zeta.
  destruct (Walk._read_rules_mks _ _ _ _) as [tm|]; [|discriminate].
  destruct (BuildEnv.choose_targets tm targets srcs) as [ts|e].
  - destruct (BuildEnv._create_build_vars _ _ _) as [w1 r1] eqn:Hc.
    apply create_build_vars_effects in Hc as (H1 & H2 & H3 & _).
    cbn in H2, H3.
    destruct r1 as [[]|e]; intros [= <- <-]; (split; [done|]); split; set_solver.
  - intros [= <- <-]. cbn. split; [done|]. split; set_solver.
Qed.

End InitMore.

Lemma lookup_srcs_spec_witness :
  BuildEnv.lookup_srcs single_map ["hello.rpgle"; "proj"] = Ok ["HELLO.PGM"; "dir_proj"]
  ∧ BuildEnv.lookup_srcs single_map ["hello.rpgle"; "x.rpgle"; "y.rpgle"]
    = Raise (KeyError "x.rpgle").
Proof.
  split.
  - apply (proj1 (lookup_srcs_spec single_map ["hello.rpgle"; "proj"])).
    repeat constructor.
  - apply (proj2 (lookup_srcs_spec single_map ["hello.rpgle"; "x.rpgle"; "y.rpgle"])).
    exists ["hello.rpgle"], "x.rpgle", ["y.rpgle"].
    split; [done|]. split; [done|]. split; [done|].
    constructor; [by eexists|constructor].
Defined.

Lemma explicit_targets_win_witness :
  BuildEnv.__init__ (sample_ext single_parse) 2 (world_of single_disk) tmp
    ["HELLO.PGM"] ["missing.rpgle"] "" None
  = BuildEnv.__init__ (sample_ext single_parse) 2 (world_of single_disk) tmp
      ["HELLO.PGM"] [] "" None.
Proof.
  apply (explicit_targets_win (sample_ext single_parse) 2 (world_of single_disk)
           tmp ["HELLO.PGM"] ["missing.rpgle"] [] "" None).
  discriminate.
Defined.

Lemma create_build_vars_effects_witness :
  tmp_files (BuildEnv._create_build_vars (sample_ext nested_parse)
               (world_of nested_disk) sample_self).1
  = (tmp_files (world_of nested_disk)
     ++ map descriptor_copy (BuildEnv.rglob_rules_mk (world_of nested_disk)))%list
  ∧ disk (world_of nested_disk)
    ⊆ disk (BuildEnv._create_build_vars (sample_ext nested_parse)
              (world_of nested_disk) sample_self).1.
Proof.
  destruct (create_build_vars_effects (sample_ext nested_parse)
              (world_of nested_disk) _ sample_self _
              (surjective_pairing _)) as (_ & _ & H3 & H4 & _).
  split; [exact H4|exact H3].
Defined.

Lemma init_effects_witness :
  match BuildEnv.__init__ (sample_ext gap_parse) 2 (world_of gap_disk) tmp
          [] [] "" None with
  | Some (w', r) =>
      commands w' = commands (world_of gap_disk)
      ∧ disk (world_of gap_disk) ⊆ disk w'
      ∧ BuildEnv.absolute (world_of gap_disk) tmp ∈ disk w'
  | None => False
  end.
Proof.
  destruct (BuildEnv.__init__ (sample_ext gap_parse) 2 (world_of gap_disk) tmp
              [] [] "" None) as [[w' r]|] eqn:E.
  - exact (init_effects (sample_ext gap_parse) 2 (world_of gap_disk) w' tmp
             [] [] "" None r E).
  - vm_compute in E. discriminate E.
Defined.

(** ** Variable resolution: order, success, dependence *)

Lemma filter_insert_by_depth (n : nat) (x : Path) (l : list Path) :
  List.filter (fun p => Nat.eqb (length p) n) (Resolve.insert_by_depth x l)
  = List.filter (fun p => Nat.eqb (length p) n) (x :: l).
Proof.
  induction l as [|y l IH]; [done|].
  cbn [Resolve.insert_by_depth].
  destruct (Nat.leb_spec (length x) (length y)) as [Hle|Hgt]; [done|].
  cbn [List.filter] in *. rewrite IH.
  destruct (Nat.eqb_spec (length x) n) as [Hx|Hx];
    destruct (Nat.eqb_spec (length y) n) as [Hy|Hy]; try done.
  lia.
Qed.

(** X9.  The sort of the directories by depth keeps all of them, puts
    them in ascending order of depth, and leaves directories of the same
    depth in the order [rglob] found them. *)
Theorem sort_by_depth_stable (l : list Path) :
  Resolve.sort_by_depth l ≡ₚ l
  ∧ StronglySorted Resolve.by_depth (Resolve.sort_by_depth l)
  ∧ (forall n, List.filter (fun p => Nat.eqb (length p) n) (Resolve.sort_by_depth l)
               = List.filter (fun p => Nat.eqb (length p) n) l).
Proof.
  split; [apply sort_by_depth_perm|]. split; [apply sort_by_depth_sorted|].
  intros n. induction l as [|x l IH]; [done|].
  cbn [Resolve.sort_by_depth]. rewrite filter_insert_by_depth.
  cbn [List.filter]. by rewrite IH.
Qed.

Section ResolveMore.

Variable from_file : Path -> IBMiJson -> IBMiJson.
Variable root_vars : IBMiJson.

Lemma map_all_ok_parents (l : list Path) :
  forall (m R : gmap Path IBMiJson),
  Resolve.map_all from_file m l = Ok R ->
  (forall d, is_Some (m !! d) -> is_Some (R !! d))
  ∧ (forall d, is_Some (R !! d) -> is_Some (m !! d) ∨ d ∈ l)
  ∧ (forall d, d ∈ l -> d <> [] -> is_Some (R !! PathLib.parent d)).
Proof.
  induction l as [|d l IH]; intros m R; simpl.
  - intros [= <-]. split; [done|]. split; [by left|]. by intros d ?%elem_of_nil.
  - unfold Resolve.map_ibmi_json_var. destruct (decide (d = [])) as [->|Hne].
    + intros H. destruct (IH _ _ H) as (H1 & H2 & H3).
      split; [done|]. split.
      * intros d Hd. destruct (H2 d Hd); [by left|right; by right].
      * intros d [->|Hd]%elem_of_cons Hd'; [done|by apply H3].
    + destruct (m !! PathLib.parent d) as [v|] eqn:Hv; [|discriminate].
      intros H. destruct (IH _ _ H) as (H1 & H2 & H3).
      assert (Hmono : forall x, is_Some (m !! x) ->
                is_Some (<[d := from_file (d // ".ibmi.json") v]> m !! x)).
      { intros x Hx. destruct (decide (d = x)) as [->|].
        - rewrite lookup_insert_eq. by eexists.
        - by rewrite lookup_insert_ne. }
      split; [intros x Hx; by apply H1, Hmono|]. split.
      * intros x Hx. destruct (H2 x Hx) as [Hx'|Hx']; [|right; by right].
        destruct (decide (d = x)) as [->|]; [right; left|].
        rewrite lookup_insert_ne in Hx' by done. by left.
      * intros x [->|Hx]%elem_of_cons Hx'; [|by apply H3].
        apply H1, Hmono. by eexists.
Qed.

(** X10.  The resolution completes exactly when the parent of every
    directory with a descriptor has a descriptor too or is the working
    directory; otherwise it raises.  When it completes, every such
    directory has variables, the working directory has the project's, and
    the variables of every other directory were made by
    [IBMiJson.from_file] from those of its parent. *)
Theorem resolve_completes_iff (rules_mk_paths : list Path) :
  NoDup (map PathLib.parent rules_mk_paths) ->
  ((exists R, Resolve.resolve from_file root_vars rules_mk_paths = Ok R)
   <-> Resolve.parent_closed (map PathLib.parent rules_mk_paths))
  ∧ (forall R, Resolve.resolve from_file root_vars rules_mk_paths = Ok R ->
       Resolve.top_down from_file root_vars R
       ∧ (forall d, d ∈ map PathLib.parent rules_mk_paths -> is_Some (R !! d))
       ∧ (forall d, is_Some (R !! d) ->
            d = [] ∨ d ∈ map PathLib.parent rules_mk_paths)).
Proof.
  intros Hnd.
  assert (Hinv : forall R, Resolve.resolve from_file root_vars rules_mk_paths = Ok R ->
            Resolve.parent_closed (map PathLib.parent rules_mk_paths)
            ∧ (forall d, is_Some (R !! d) ->
                 d = [] ∨ d ∈ map PathLib.parent rules_mk_paths)).
  { intros R HR. unfold Resolve.resolve, Resolve.subdirs_of in HR.
    apply map_all_ok_parents in HR as (_ & H2 & H3).
    assert (Hdom : forall d, is_Some (R !! d) ->
              d = [] ∨ d ∈ map PathLib.parent rules_mk_paths).
    { intros d Hd. destruct (H2 d Hd) as [[x Hx]|Hx].
      - left. destruct (decide (d = [])) as [|Hne]; [done|].
        by rewrite lookup_singleton_ne in Hx.
      - right. by rewrite sort_by_depth_perm in Hx. }
    split; [|done]. intros d Hd Hne. apply Hdom, H3; [|done].
    by rewrite sort_by_depth_perm. }
  split; [split|].
  - intros [R HR]. by destruct (Hinv R HR).
  - intros Hpc.
    destruct (resolve_parent_closed from_file root_vars rules_mk_paths Hnd Hpc)
      as (R & HR & _). by exists R.
  - intros R HR. destruct (Hinv R HR) as [Hpc Hdom].
    destruct (resolve_parent_closed from_file root_vars rules_mk_paths Hnd Hpc)
      as (R' & HR' & Htd & Hall).
    assert (R' = R) as -> by congruence. done.
Qed.

(** X12.  When no override file changes anything, every directory gets
    the project's values. *)
Theorem resolve_without_overrides (rules_mk_paths : list Path) :
  (forall p v, from_file p v = v) ->
  NoDup (map PathLib.parent rules_mk_paths) ->
  Resolve.parent_closed (map PathLib.parent rules_mk_paths) ->
  exists R, Resolve.resolve from_file root_vars rules_mk_paths = Ok R
    ∧ forall d, d ∈ map PathLib.parent rules_mk_paths -> R !! d = Some root_vars.
Proof.
  intros Hid Hnd Hpc.
  destruct (resolve_parent_closed from_file root_vars rules_mk_paths Hnd Hpc)
    as (R & HR & [Hroot Htd] & Hall).
  exists R. split; [done|].
  assert (Hany : forall d, is_Some (R !! d) -> R !! d = Some root_vars).
  { induction d as [|x q IH] using rev_ind; intros Hd; [done|].
    assert (Hne : (q ++ [x])%list <> []) by (by destruct q).
    destruct (Htd _ Hne Hd) as (v & Hp & ->).
    rewrite parent_snoc in Hp. rewrite Hid.
    rewrite <- Hp. apply IH. by eexists. }
  intros d Hd. by apply Hany, Hall.
Qed.

End ResolveMore.

(** X11.  The variables of a directory depend on the override files of
    the directory and of its ancestors only: two readings of the override
    files that agree along that chain give the directory the same
    variables, whatever they say about siblings and descendants. *)
Theorem resolve_depends_on_chain (f1 f2 : Path -> IBMiJson -> IBMiJson)
    (root_vars : IBMiJson) (rules_mk_paths : list Path) (d : Path) :
  NoDup (map PathLib.parent rules_mk_paths) ->
  Resolve.parent_closed (map PathLib.parent rules_mk_paths) ->
  d ∈ map PathLib.parent rules_mk_paths ->
  (forall a v, a `prefix_of` d -> a <> [] ->
     f1 (a // ".ibmi.json") v = f2 (a // ".ibmi.json") v) ->
  exists R1 R2 v,
    Resolve.resolve f1 root_vars rules_mk_paths = Ok R1
    ∧ Resolve.resolve f2 root_vars rules_mk_paths = Ok R2
    ∧ R1 !! d = Some v ∧ R2 !! d = Some v.
Proof.
  intros Hnd Hpc Hd Hf.
  destruct (resolve_parent_closed f1 root_vars rules_mk_paths Hnd Hpc)
    as (R1 & HR1 & Htd1 & Hall1).
  destruct (resolve_parent_closed f2 root_vars rules_mk_paths Hnd Hpc)
    as (R2 & HR2 & Htd2 & Hall2).
  destruct (Hall1 d Hd) as [v Hv].
  exists R1, R2, v. split; [done|]. split; [done|]. split; [done|].
  rewrite <- Hv. symmetry.
  by apply (resolved_by_chain f1 f2 root_vars); [| |eexists|apply Hall2|].
Qed.

Lemma nested_NoDup : NoDup (map PathLib.parent nested_rules_mk_paths).
Proof. on_disk. Qed.

Lemma nested_parent_closed :
  Resolve.parent_closed (map PathLib.parent nested_rules_mk_paths).
Proof.
  intros d Hd Hne. cbn in Hd.
  apply elem_of_cons in Hd as [->|Hd]; [right; right; right; left|].
  apply elem_of_cons in Hd as [->|Hd]; [done|].
  apply elem_of_cons in Hd as [->|Hd]; [by left|].
  by apply elem_of_nil in Hd.
Qed.

Lemma resolve_completes_iff_witness :
  (exists R, Resolve.resolve (sample_ibmi [["a"; "b"]]) sample_root_vars
               nested_rules_mk_paths = Ok R)
  ∧ ~ Resolve.parent_closed (map PathLib.parent [["src"; "app"; "Rules.mk"]; ["Rules.mk"]]).
Proof.
  split.
  - apply (proj1 (resolve_completes_iff (sample_ibmi [["a"; "b"]]) sample_root_vars
                    nested_rules_mk_paths nested_NoDup)).
    exact nested_parent_closed.
  - intros H.
    apply (proj1 (resolve_completes_iff (sample_ibmi []) sample_root_vars
                    [["src"; "app"; "Rules.mk"]; ["Rules.mk"]] ltac:(on_disk))) in H
      as [R HR].
    vm_compute in HR. discriminate HR.
Defined.

Lemma resolve_without_overrides_witness :
  exists R, Resolve.resolve (sample_ibmi []) sample_root_vars nested_rules_mk_paths = Ok R
    ∧ forall d, d ∈ map PathLib.parent nested_rules_mk_paths ->
        R !! d = Some sample_root_vars.
Proof.
  apply (resolve_without_overrides (sample_ibmi []) sample_root_vars
           nested_rules_mk_paths).
  - intros p v. unfold sample_ibmi. rewrite bool_decide_eq_false_2; [done|].
    by intros ?%elem_of_nil.
  - exact nested_NoDup.
  - exact nested_parent_closed.
Defined.

Lemma resolve_depends_on_chain_witness :
  exists R1 R2 v,
    Resolve.resolve (sample_ibmi []) sample_root_vars nested_rules_mk_paths = Ok R1
    ∧ Resolve.resolve (sample_ibmi [["a"; "b"]]) sample_root_vars
        nested_rules_mk_paths = Ok R2
    ∧ R1 !! ["a"] = Some v ∧ R2 !! ["a"] = Some v.
Proof.
  apply (resolve_depends_on_chain (sample_ibmi []) (sample_ibmi [["a"; "b"]])
           sample_root_vars nested_rules_mk_paths ["a"]
           nested_NoDup nested_parent_closed).
  - right. right. left.
  - intros a v [k Hk] Hne.
    destruct a as [|x [|y a]]; [done| |discriminate Hk].
    injection Hk as <- _. vm_compute. reflexivity.
Defined.

(** ** The exceptions of the output handler *)

(** X13.  The output handler raises on decoding only.  A line of bytes that
    decodes is always taken: a line with the failure marker has a last word
    and a line with the success marker has a second word, so the indexing
    never raises [IndexError].  A line that is no UTF-8 raises
    [UnicodeDecodeError], and an argument that is not of type [bytes] raises
    [UnboundLocalError].  When a line of the output does not decode,
    [make()] raises [UnicodeDecodeError] before [_post_make]: no temporary
    file is unlinked.  So [make()] ends with a boolean, with the exception
    that left [run_command], with [UnicodeDecodeError], or with
    [FileNotFoundError] from unlinking a temporary file. *)
Theorem handler_exceptions :
  (forall self b, decodable b ->
     (BuildEnv.handle_make_output self (Bytes b)).2 = Ok tt)
  ∧ (forall self b, ~ decodable b ->
       BuildEnv.handle_make_output self (Bytes b) = (self, Raise UnicodeDecodeError))
  ∧ (forall self,
       BuildEnv.handle_make_output self NotBytes = (self, Raise UnboundLocalError))
  ∧ (forall world self lines rc, ~ Forall decodable lines ->
       (BuildEnv.make world self (Exited lines rc)).2 = Raise UnicodeDecodeError
       ∧ (BuildEnv.make world self (Exited lines rc)).1.1 = log_command_of world self)
  ∧ (forall world self exec e,
       (BuildEnv.make world self exec).2 = Raise e ->
       e = CommandError ∨ e = UnicodeDecodeError
       ∨ exists p, e = FileNotFoundError p).
Proof.
  split; [|split; [|split; [|split]]].
  - intros self b Hb. by apply handle_decoded.
  - intros self b Hb. by apply handle_undecodable.
  - done.
  - intros world self lines rc Hl. unfold BuildEnv.make.
    fold (log_command_of world self).
    pose proof (handle_lines_undecodable lines self Hl) as Hr.
    destruct (BuildEnv.handle_lines self lines) as [self1 [[]|e]];
      [discriminate Hr|]. cbn in Hr. by injection Hr as ->.
  - intros world self exec e. unfold BuildEnv.make.
    destruct exec as [lines rc|lines]; [|intros [= <-]; by left].
    destruct (handle_lines_result lines self) as [Hok|Hok];
      destruct (BuildEnv.handle_lines self lines) as [self1 [[]|e']];
      try discriminate Hok.
    + unfold BuildEnv._post_make.
      match goal with
      | |- context [BuildEnv.unlink_all ?w0 ?l0] =>
          destruct (unlink_all_result w0 l0) as [Hu|[p Hu]];
          destruct (BuildEnv.unlink_all w0 l0) as [w4 [[]|e'']];
          simpl in Hu; try discriminate Hu; simpl
      end.
      * discriminate.
      * intros [= <-]. right. right. exists p. by injection Hu.
    + cbn in Hok. injection Hok as ->. cbn. intros [= <-]. right. by left.
Qed.

Lemma handler_exceptions_witness :
  (BuildEnv.make built_world sample_self
     (Exited [failed_line "HELLO.PGM"; String (ascii_of_nat 255) ""] 0%Z)).2
  = Raise UnicodeDecodeError
  ∧ (BuildEnv.make built_world sample_self
       (Exited [failed_line "HELLO.PGM"; String (ascii_of_nat 255) ""] 0%Z)).1.1
    = log_command_of built_world sample_self.
Proof.
  apply (proj1 (proj2 (proj2 (proj2 handler_exceptions)))).
  intros [_ [[line Hline] _]%Forall_cons]%Forall_cons.
  vm_compute in Hline. discriminate Hline.
Defined.

(** X14.  [make()] only ever appends to the two lists of targets, at most
    one name per line to each; they are never emptied.  So on an
    environment that already records a failed target, [make()] returns
    true for no output whatever. *)
Theorem make_only_appends (world : World) (self : BuildEnv.t) (exec : Execution) :
  (exists l1 l2,
     BuildEnv.failed_targets (BuildEnv.make world self exec).1.2
     = (BuildEnv.failed_targets self ++ l1)%list
     ∧ BuildEnv.success_targets (BuildEnv.make world self exec).1.2
       = (BuildEnv.success_targets self ++ l2)%list)
  ∧ (BuildEnv.failed_targets self <> [] ->
     (BuildEnv.make world self exec).2 <> Ok true).
Proof.
  assert (Hg : exists l1 l2,
     BuildEnv.failed_targets (BuildEnv.make world self exec).1.2
     = (BuildEnv.failed_targets self ++ l1)%list
     ∧ BuildEnv.success_targets (BuildEnv.make world self exec).1.2
       = (BuildEnv.success_targets self ++ l2)%list).
  { unfold BuildEnv.make. destruct exec as [lines rc|lines];
      destruct (handle_lines_grows lines self) as [(l1 & l2 & H1 & H2) _];
      [|by exists l1, l2].
    destruct (BuildEnv.handle_lines self lines) as [self1 [[]|e']];
      cbn [fst] in H1, H2; [|by exists l1, l2].
    destruct (BuildEnv._post_make _ self1) as [w4 [[]|e]]; simpl;
      by exists l1, l2. }
  split; [exact Hg|].
  intros Hne Hres. apply make_result in Hres.
  destruct Hg as (l1 & l2 & H1 & _). rewrite H1 in Hres.
  destruct (BuildEnv.failed_targets self); [done|discriminate Hres].
Qed.

Lemma make_only_appends_witness :
  (BuildEnv.make (world_of single_disk)
     (BuildEnv.set_failed_targets sample_self [UStr.of_string "OLD.PGM"])
     (Exited [success_line ">>" "NEW.PGM"] 0%Z)).2 <> Ok true.
Proof.
  apply (proj2 (make_only_appends (world_of single_disk)
                  (BuildEnv.set_failed_targets sample_self [UStr.of_string "OLD.PGM"])
                  (Exited [success_line ">>" "NEW.PGM"] 0%Z))).
  discriminate.
Defined.

(** ** Unlinking the temporary files *)

Lemma unlink_all_spec (l : list Path) :
  forall w,
  cwd (BuildEnv.unlink_all w l).1 = cwd w
  ∧ tmp_files (BuildEnv.unlink_all w l).1 = tmp_files w
  ∧ commands (BuildEnv.unlink_all w l).1 = commands w
  ∧ disk (BuildEnv.unlink_all w l).1 ⊆ disk w
  ∧ ((BuildEnv.unlink_all w l).2 = Ok tt
     <-> NoDup (map (BuildEnv.absolute w) l)
         ∧ Forall (fun p => BuildEnv.absolute w p ∈ disk w) l)
  ∧ ((BuildEnv.unlink_all w l).2 = Ok tt ->
     disk (BuildEnv.unlink_all w l).1
     = disk w ∖ list_to_set (map (BuildEnv.absolute w) l)).
Proof.
  induction l as [|p l IH]; intros w.
  - cbn. do 4 (split; [done|]). split.
    + split; [intros _; split; constructor|done].
    + intros _. by rewrite difference_empty_L.
  - cbn [BuildEnv.unlink_all]. unfold BuildEnv.unlink, BuildEnv.exists_.
    destruct (bool_decide_reflect (BuildEnv.absolute w p ∈ disk w)) as [Hin|Hout].
    + destruct (IH {| cwd := cwd w; disk := disk w ∖ {[BuildEnv.absolute w p]};
                      text := delete (BuildEnv.absolute w p) (text w);
                      tmp_files := tmp_files w; commands := commands w |})
        as (H1 & H2 & H3 & H4 & H5 & H6).
      cbn [cwd disk tmp_files commands] in H1, H2, H3, H4, H5, H6.
      match type of H5 with
      | ?lhs = _ <-> _ =>
          assert (H5' : lhs = Ok tt
            <-> NoDup (map (BuildEnv.absolute w) l)
                ∧ Forall (fun q => BuildEnv.absolute w q
                                   ∈ disk w ∖ {[BuildEnv.absolute w p]}) l)
            by exact H5;
          assert (H6' : lhs = Ok tt ->
            disk (BuildEnv.unlink_all
                    {| cwd := cwd w; disk := disk w ∖ {[BuildEnv.absolute w p]};
                       text := delete (BuildEnv.absolute w p) (text w);
                       tmp_files := tmp_files w; commands := commands w |} l).1
            = disk w ∖ {[BuildEnv.absolute w p]}
                ∖ list_to_set (map (BuildEnv.absolute w) l))
            by exact H6
      end.
      clear IH H5 H6. rename H5' into H5. rename H6' into H6.
      split; [done|]. split; [done|]. split; [done|].
      split; [etrans; [exact H4|]; by apply subseteq_difference_l|].
      split.
      * rewrite H5. cbn [map]. rewrite NoDup_cons, Forall_cons.
        rewrite !Forall_forall. split.
        -- intros [Hnd Hall]. split; [split; [|done]|split; [done|]].
           ++ intros (q & Hq & Hql)%list_elem_of_fmap.
              specialize (Hall q Hql).
              apply elem_of_difference in Hall as [_ Hall].
              apply Hall, elem_of_singleton. by symmetry.
           ++ intros q Hq. specialize (Hall q Hq).
              by apply elem_of_difference in Hall as [Hall _].
        -- intros [[Hp Hnd] [_ Hall]]. split; [done|].
           intros q Hq. apply elem_of_difference. split; [by apply Hall|].
           intros Heq%elem_of_singleton. apply Hp, list_elem_of_fmap. by exists q.
      * intros Hok. rewrite (H6 Hok). cbn [map]. rewrite list_to_set_cons.
        by rewrite difference_difference_l_L.
    + cbn. do 4 (split; [done|]). split; [|discriminate].
      split; [discriminate|]. intros [_ [Hp _]%Forall_cons]. done.
Qed.



Lemma unlink_if_exists_effects (w : World) (p : Path) :
  cwd (BuildEnv.unlink_if_exists w p) = cwd w
  ∧ tmp_files (BuildEnv.unlink_if_exists w p) = tmp_files w
  ∧ commands (BuildEnv.unlink_if_exists w p) = commands w
  ∧ disk (BuildEnv.unlink_if_exists w p) = disk w ∖ {[BuildEnv.absolute w p]}.
Proof.
  unfold BuildEnv.unlink_if_exists, BuildEnv.unlink, BuildEnv.exists_.
  destruct (bool_decide_reflect (BuildEnv.absolute w p ∈ disk w)); cbn;
    [done|]. do 3 (split; [done|]).
  symmetry. by apply difference_disjoint_L, disjoint_singleton_r.
Qed.

(** The world in which [make()] calls [run_command]. *)
Lemma make_before_run (w : World) (self : BuildEnv.t) :
  let w3 :=
    log_command_of w self in
  cwd w3 = cwd w ∧ tmp_files w3 = tmp_files w
  ∧ commands w3 = (commands w ++ [BuildEnv.generate_make_cmd self])%list
  ∧ disk w3
    = disk w ∖ {[BuildEnv.absolute w (BuildEnv.src_dir self // ".logs" // "joblog.json")]}
             ∖ {[BuildEnv.absolute w (BuildEnv.src_dir self // ".logs" // "output.log")]}.
Proof.
  unfold log_command_of. cbv zeta. unfold BuildEnv.log_command.
  cbn [cwd tmp_files commands disk].
  destruct (unlink_if_exists_effects w
              (BuildEnv.src_dir self // ".logs" // "joblog.json")) as (A1 & A2 & A3 & A4).
  destruct (unlink_if_exists_effects
              (BuildEnv.unlink_if_exists w (BuildEnv.src_dir self // ".logs" // "joblog.json"))
              (BuildEnv.src_dir self // ".logs" // "output.log")) as (B1 & B2 & B3 & B4).
  rewrite B1, B2, B3, B4, A1, A2, A3, A4.
  by rewrite (absolute_same_cwd w _ _ A1).
Qed.

(** *** The result of [make()] on classified output *)







(** X16.  When [run_command] raises, [make()] raises too and has unlinked
    nothing but the two log files of the previous run: every temporary
    file is where it was, and the command was handed over once. *)
Theorem crash_unlinks_nothing (w : World) (self : BuildEnv.t) (lines : list string) :
  (BuildEnv.make w self (Crashed lines)).2 = Raise CommandError
  ∧ disk (BuildEnv.make w self (Crashed lines)).1.1
    = disk w ∖ {[BuildEnv.absolute w (BuildEnv.src_dir self // ".logs" // "joblog.json")]}
             ∖ {[BuildEnv.absolute w (BuildEnv.src_dir self // ".logs" // "output.log")]}
  ∧ tmp_files (BuildEnv.make w self (Crashed lines)).1.1 = tmp_files w
  ∧ commands (BuildEnv.make w self (Crashed lines)).1.1
    = (commands w ++ [BuildEnv.generate_make_cmd self])%list.
Proof.
  destruct (make_before_run w self) as (H1 & H2 & H3 & H4).
  unfold BuildEnv.make. cbn [fst snd]. done.
Qed.

(** X17.  The list [tmp_files] is never emptied, so [make()] works once:
    after a [make()] that returned, with at least one temporary file
    listed, every further [make()] on the resulting world raises.  When the
    executor exits and its lines all decode, it raises [FileNotFoundError]
    for the first listed file, whatever the lines say; when a line does not
    decode, [UnicodeDecodeError]; and when an exception leaves
    [run_command], that one. *)
Theorem second_make_raises (w w1 : World) (self self1 self2 : BuildEnv.t)
    (lines : list string) (rc : Z) (b : bool) (p : Path) (l : list Path) :
  tmp_files w = p :: l ->
  BuildEnv.make w self (Exited lines rc) = (w1, self1, Ok b) ->
  (forall exec, exists e, (BuildEnv.make w1 self2 exec).2 = Raise e)
  ∧ (forall lines' rc', Forall decodable lines' ->
       (BuildEnv.make w1 self2 (Exited lines' rc')).2 = Raise (FileNotFoundError p))
  ∧ (forall lines' rc', ~ Forall decodable lines' ->
       (BuildEnv.make w1 self2 (Exited lines' rc')).2 = Raise UnicodeDecodeError)
  ∧ (forall lines',
       (BuildEnv.make w1 self2 (Crashed lines')).2 = Raise CommandError).
Proof.
  intros Htmp Hmake.
  assert (Hdec : forall lines' rc', Forall decodable lines' ->
    (BuildEnv.make w1 self2 (Exited lines' rc')).2 = Raise (FileNotFoundError p)).
  { intros lines' rc' Hl'.
    destruct (make_before_run w self) as (H1 & H2 & H3 & H4).
    unfold BuildEnv.make in Hmake. fold (log_command_of w self) in Hmake.
    destruct (BuildEnv.handle_lines self lines) as [s1 [[]|e]];
      [|discriminate Hmake].
    unfold BuildEnv._post_make in Hmake.
    destruct (unlink_all_spec (tmp_files (log_command_of w self)) (log_command_of w self))
      as (U1 & U2 & U3 & U4 & U5 & U6).
    destruct (BuildEnv.unlink_all _ _) as [w4 [[]|e]]; [|discriminate Hmake].
    injection Hmake as -> _ _. cbn [fst snd] in *.
    specialize (U6 eq_refl). rewrite H2, Htmp in U6, U2.
    assert (Hgone : BuildEnv.absolute w1 p ∉ disk w1).
    { rewrite (absolute_same_cwd (log_command_of w self) w1) by done.
      rewrite U6. cbn [map]. rewrite list_to_set_cons.
      intros [_ Hn]%elem_of_difference. apply Hn, elem_of_union_l.
      by apply elem_of_singleton. }
    destruct (make_before_run w1 self2) as (G1 & G2 & G3 & G4).
    unfold BuildEnv.make. fold (log_command_of w1 self2).
    destruct (handle_lines_decodable lines' self2 Hl') as [Hok' _].
    destruct (BuildEnv.handle_lines self2 lines') as [s2 [[]|e]]; [|discriminate Hok'].
    unfold BuildEnv._post_make. rewrite G2, U2.
    cbn [BuildEnv.unlink_all]. unfold BuildEnv.unlink, BuildEnv.exists_.
    rewrite bool_decide_eq_false_2; [done|].
    rewrite (absolute_same_cwd w1 _ _ G1), G4.
    intros [[H _]%elem_of_difference _]%elem_of_difference. by apply Hgone. }
  assert (Hund : forall lines' rc', ~ Forall decodable lines' ->
    (BuildEnv.make w1 self2 (Exited lines' rc')).2 = Raise UnicodeDecodeError).
  { intros lines' rc' Hl'. unfold BuildEnv.make.
    pose proof (handle_lines_undecodable lines' self2 Hl') as Hr.
    destruct (BuildEnv.handle_lines self2 lines') as [s2 [[]|e]];
      [discriminate Hr|]. cbn in Hr. by injection Hr as ->. }
  split; [|split; [exact Hdec|split; [exact Hund|done]]].
  intros [lines' rc'|lines']; [|by eexists].
  destruct (all_decodable_dec lines') as [Hd|Hd]; eexists.
  - by apply Hdec.
  - by apply Hund.
Qed.

Lemma second_make_raises_witness :
  (BuildEnv.make (BuildEnv.make built_world sample_self (Exited [] 0%Z)).1.1
     sample_self (Exited [failed_line "HELLO.PGM"] 0%Z)).2
  = Raise (FileNotFoundError [".Rules.mk.build"]).
Proof.
  assert (Hd : Forall decodable [failed_line "HELLO.PGM"]).
  { constructor; [|constructor]. vm_compute. by eexists. }
  apply (proj1 (proj2 (second_make_raises built_world _ sample_self
           (BuildEnv.make built_world sample_self (Exited [] 0%Z)).1.2
           sample_self [] 0%Z true
           [".Rules.mk.build"] [] eq_refl eq_refl))
           [failed_line "HELLO.PGM"] 0%Z Hd).
Defined.

(** ** A build whose executor exits leaves no file behind *)

Lemma NoDup_omap_inj {A B} (f : A -> option B) (l : list A) :
  (forall x y z, f x = Some z -> f y = Some z -> x = y) ->
  NoDup l -> NoDup (omap f l).
Proof.
  intros Hinj. induction 1 as [|x l Hx Hl IH]; [constructor|].
  cbn. destruct (f x) as [z|] eqn:Hz; [|done].
  constructor; [|done].
  intros (y & Hy & Hfy)%list_elem_of_omap.
  apply Hx. by rewrite (Hinj x y z).
Qed.

Lemma relative_to_Some (base p rel : Path) :
  BuildEnv.relative_to base p = Some rel -> p = (base ++ rel)%list.
Proof.
  unfold BuildEnv.relative_to. destruct (decide _) as [E|]; [|discriminate].
  intros [= <-].
  transitivity (take (length base) p ++ drop (length base) p)%list;
    [symmetry; apply take_drop|by rewrite E].
Qed.

Lemma name_Rules_mk (p : Path) :
  PathLib.name p = "Rules.mk" -> exists d, p = (d ++ ["Rules.mk"])%list.
Proof.
  unfold PathLib.name. destruct (List.rev p) as [|x r] eqn:E; [discriminate|].
  destruct (String.eqb x "/"); [discriminate|]. intros ->.
  exists (List.rev r). apply (f_equal (@List.rev string)) in E.
  rewrite rev_involutive in E. by rewrite E.
Qed.

Lemma rglob_elem (w : World) (rel : Path) :
  rel ∈ BuildEnv.rglob_rules_mk w ->
  (cwd w ++ rel)%list ∈ disk w ∧ exists d, rel = (d ++ ["Rules.mk"])%list.
Proof.
  unfold BuildEnv.rglob_rules_mk.
  intros [Hn (p & Hp & Hrel)%list_elem_of_omap]%elem_of_List_filter.
  apply relative_to_Some in Hrel as ->. apply elem_of_elements in Hp.
  split; [done|]. apply name_Rules_mk. by apply String.eqb_eq.
Qed.

Lemma rglob_NoDup (w : World) : NoDup (BuildEnv.rglob_rules_mk w).
Proof.
  unfold BuildEnv.rglob_rules_mk. apply NoDup_ListNoDup, List.NoDup_filter,
    NoDup_ListNoDup, NoDup_omap_inj; [|apply NoDup_elements].
  intros x y z Hx%relative_to_Some Hy%relative_to_Some. congruence.
Qed.

Lemma descriptor_copy_snoc (d : Path) :
  descriptor_copy (d ++ ["Rules.mk"]) = (d ++ [".Rules.mk.build"])%list.
Proof. unfold descriptor_copy. by rewrite parent_snoc. Qed.

Lemma absolute_relative (w : World) (p : Path) :
  p <> [] -> "/" ∉ p -> BuildEnv.absolute w p = (cwd w ++ p)%list.
Proof.
  intros Hne Hp. unfold BuildEnv.absolute. destruct p as [|x p]; [done|].
  destruct (String.eqb_spec x "/") as [->|]; [|done].
  exfalso. apply Hp. left.
Qed.

Lemma absolute_last (w : World) (p : Path) (x : string) :
  exists q, BuildEnv.absolute w (p ++ [x]) = (q ++ [x])%list.
Proof.
  unfold BuildEnv.absolute. destruct (p ++ [x])%list as [|y r] eqn:E.
  - by destruct p.
  - destruct (String.eqb y "/"); rewrite <- E.
    + by exists p.
    + exists (cwd w ++ p)%list. by rewrite app_assoc.
Qed.

Section CleanBuild.

Variable ext : Externals.

Lemma init_ok_inv (fuel : nat) (w w1 : World) (tmp : Path)
    (targets srcs : list string) (make_options : string) (over : option Path)
    (self : BuildEnv.t) :
  BuildEnv.__init__ ext fuel w tmp targets srcs make_options over = Some (w1, Ok self) ->
  BuildEnv.build_vars_path self = tmp
  ∧ BuildEnv.src_dir self = cwd w
  ∧ BuildEnv._create_build_vars ext (BuildEnv.write_text w tmp "") self = (w1, Ok tt).
Proof.
  unfold BuildEnv.__init__. cbv zeta.
  destruct (Walk._read_rules_mks _ _ _ _) as [tm|]; [|discriminate].
  destruct (BuildEnv.choose_targets tm targets srcs) as [ts|e]; [|discriminate].
  destruct (BuildEnv._create_build_vars _ _ _) as [w' [[]|e]] eqn:Hc; [|discriminate].
  intros [= <- <-]. done.
Qed.

Lemma create_build_vars_disk (w w' : World) (self : BuildEnv.t) :
  BuildEnv._create_build_vars ext w self = (w', Ok tt) ->
  disk w'
  = disk w
    ∪ list_to_set (map (fun p => BuildEnv.absolute w (descriptor_copy p))
                     (BuildEnv.rglob_rules_mk w))
    ∪ {[BuildEnv.absolute w (BuildEnv.build_vars_path self)]}.
Proof.
  unfold BuildEnv._create_build_vars. cbv zeta.
  destruct (foldl_create ext (BuildEnv.rglob_rules_mk w) w) as (H1 & _ & _ & H4).
  destruct (Resolve.resolve _ _ _) as [dvm|e]; [|discriminate].
  destruct (BuildEnv.all_subdir_lines _ _ _ _) as [s|e]; [|discriminate].
  intros [= <-]. cbn [disk BuildEnv.write_text].
  by rewrite H4, (absolute_same_cwd w _ _ H1).
Qed.

Section Rooted.

Variable w : World.
Hypothesis cwd_not_empty : cwd w <> [].
Hypothesis disk_rooted : forall q, q ∈ disk w -> rooted_once q.

Lemma copy_of_found (rel : Path) :
  rel ∈ BuildEnv.rglob_rules_mk w ->
  exists d, rel = (d ++ ["Rules.mk"])%list
    ∧ BuildEnv.absolute w (descriptor_copy rel)
      = (cwd w ++ d ++ [".Rules.mk.build"])%list.
Proof.
  intros [Hin [d ->]]%rglob_elem. exists d. split; [done|].
  rewrite descriptor_copy_snoc. apply absolute_relative; [by destruct d|].
  apply disk_rooted in Hin. unfold rooted_once in Hin.
  destruct (cwd w) as [|c cs] eqn:Ec; [done|]. cbn in Hin.
  intros [Hd|Hd]%elem_of_app.
  - apply Hin. rewrite drop_0, !elem_of_app. right. by left.
  - apply list_elem_of_singleton in Hd. discriminate Hd.
Qed.

Lemma copies_NoDup :
  NoDup (map (fun p => BuildEnv.absolute w (descriptor_copy p))
           (BuildEnv.rglob_rules_mk w)).
Proof.
  apply (NoDup_fmap_2_strong
           (fun p => BuildEnv.absolute w (descriptor_copy p))); [|apply rglob_NoDup].
  intros x y (dx & -> & Hx)%copy_of_found (dy & -> & Hy)%copy_of_found E.
  rewrite Hx, Hy in E. apply app_inv_head in E.
  apply app_inj_tail in E as [-> _]. done.
Qed.

End Rooted.

(** X18.  In a process that has listed no temporary file yet, on a disk
    whose paths are well formed, a build whose constructor returned and
    whose executor exits after lines that all decode ends with a boolean,
    and the file operations of the build leave no file on disk that was not
    there before: the descriptor copies are unlinked by [_post_make] and
    the variable file by [__del__]. *)
Theorem clean_build (fuel : nat) (w w1 : World) (tmp t : Path)
    (targets srcs : list string) (make_options : string) (over : option Path)
    (self : BuildEnv.t) (lines : list string) (rc : Z) :
  Forall decodable lines ->
  tmp_files w = [] ->
  cwd w <> [] ->
  (forall q, q ∈ disk w -> rooted_once q) ->
  tmp = "/" :: t -> "/" ∉ t ->
  BuildEnv.__init__ ext fuel w tmp targets srcs make_options over = Some (w1, Ok self) ->
  exists w' b,
    BuildEnv.invocation ext fuel w tmp targets srcs make_options over (Exited lines rc)
    = Some (w', Ok b)
    ∧ disk w' ⊆ disk w.
Proof.
  intros Hdec Hfresh Hcwd Hdisk -> Ht Hinit.
  destruct (init_ok_inv _ _ _ _ _ _ _ _ _ Hinit) as (Hpath & Hsrc & Hcreate).
  set (w0 := BuildEnv.write_text w ("/" :: t) "") in *.
  assert (Hcwd0 : cwd w0 = cwd w) by done.
  assert (Habs_tmp : BuildEnv.absolute w0 ("/" :: t) = "/" :: t) by done.
  assert (Hdisk0 : forall q, q ∈ disk w0 -> rooted_once q).
  { intros q [Hq|Hq]%elem_of_union; [by apply Hdisk|].
    apply elem_of_singleton in Hq as ->. exact Ht. }
  assert (Hcwd0' : cwd w0 <> []) by (by rewrite Hcwd0).
  pose proof (copies_NoDup w0 Hcwd0' Hdisk0) as Hnd.
  pose proof (create_build_vars_disk _ _ _ Hcreate) as Hd1.
  destruct (create_build_vars_effects ext _ _ _ _ Hcreate)
    as (Hcwd1 & _ & _ & Htmp1 & Hcopies & _).
  change (tmp_files w0) with (tmp_files w) in Htmp1. rewrite Hfresh in Htmp1.
  cbn [app] in Htmp1. rewrite Hpath, Habs_tmp in Hd1.
  unfold BuildEnv.invocation. rewrite Hinit. unfold BuildEnv.make.
  fold (log_command_of w1 self).
  destruct (make_before_run w1 self) as (G1 & G2 & _ & G4).
  destruct (handle_lines_decodable lines self Hdec) as [Hok _].
  pose proof (handle_lines_path lines self) as Hp1.
  destruct (BuildEnv.handle_lines self lines) as [self1 [[]|e]]; [|discriminate Hok].
  cbn [fst] in Hp1. unfold BuildEnv._post_make.
  destruct (unlink_all_spec (tmp_files (log_command_of w1 self)) (log_command_of w1 self))
    as (U1 & _ & _ & _ & U5 & U6).
  assert (Habs3 : forall p, BuildEnv.absolute (log_command_of w1 self) p
                            = BuildEnv.absolute w0 p).
  { intros p. apply absolute_same_cwd. by rewrite G1, Hcwd1. }
  assert (Hmap : map (BuildEnv.absolute (log_command_of w1 self))
                   (tmp_files (log_command_of w1 self))
                 = map (fun p => BuildEnv.absolute w0 (descriptor_copy p))
                     (BuildEnv.rglob_rules_mk w0)).
  { rewrite G2, Htmp1, map_map. apply List.map_ext. intros p. apply Habs3. }
  rewrite Hmap in U5, U6.
  assert (Hsucc : (BuildEnv.unlink_all (log_command_of w1 self)
                     (tmp_files (log_command_of w1 self))).2 = Ok tt).
  { apply U5. split; [exact Hnd|].
    rewrite G2, Htmp1. apply Forall_forall.
    intros c (p & -> & Hp)%list_elem_of_fmap.
    rewrite Habs3, G4.
    destruct (copy_of_found w0 Hcwd0' Hdisk0 p Hp) as (d & -> & Hc).
    apply elem_of_difference. split; [apply elem_of_difference; split|].
    - by apply Hcopies.
    - rewrite Hc. intros E%elem_of_singleton.
      destruct (absolute_last w1 (BuildEnv.src_dir self // ".logs") "joblog.json")
        as [q Hq].
      change (BuildEnv.src_dir self // ".logs" // "joblog.json")
        with ((BuildEnv.src_dir self // ".logs") ++ ["joblog.json"])%list in E.
      rewrite Hq, !app_assoc in E. by apply app_inj_tail in E as [_ ?].
    - rewrite Hc. intros E%elem_of_singleton.
      destruct (absolute_last w1 (BuildEnv.src_dir self // ".logs") "output.log")
        as [q Hq].
      change (BuildEnv.src_dir self // ".logs" // "output.log")
        with ((BuildEnv.src_dir self // ".logs") ++ ["output.log"])%list in E.
      rewrite Hq, !app_assoc in E. by apply app_inj_tail in E as [_ ?]. }
  specialize (U6 Hsucc).
  destruct (BuildEnv.unlink_all _ _) as [w4 [[]|e]]; [|discriminate Hsucc].
  cbn [fst snd] in *.
  eexists _, _. split; [reflexivity|].
  assert (H4 : disk w4 ⊆ disk w ∪ {["/" :: t]}).
  { rewrite U6, G4, Hd1. intros x.
    rewrite !elem_of_difference, !elem_of_union. intros [[[[[H|H]|H] _] _] Hn].
    - change (disk w0) with (disk w ∪ {["/" :: t]}) in H.
      by apply elem_of_union in H.
    - done.
    - by right. }
  unfold BuildEnv.__del__, BuildEnv.unlink, BuildEnv.exists_.
  rewrite Hp1, Hpath.
  assert (Habs4 : BuildEnv.absolute w4 ("/" :: t) = "/" :: t) by done.
  rewrite Habs4.
  destruct (bool_decide_reflect (("/" :: t) ∈ disk w4)) as [Hin|Hout];
    cbn [fst disk]; intros x Hx.
  - apply elem_of_difference in Hx as [Hx Hn].
    apply H4, elem_of_union in Hx as [Hx|Hx]; [done|by destruct Hn].
  - pose proof (H4 _ Hx) as [Hx'|Hx']%elem_of_union; [done|].
    apply elem_of_singleton in Hx' as ->. by destruct Hout.
Qed.

End CleanBuild.

Lemma single_disk_rooted (q : Path) : q ∈ single_disk -> rooted_once q.
Proof.
  unfold single_disk. intros [H|H]%elem_of_union;
    apply elem_of_singleton in H as ->;
    unfold rooted_once; apply (bool_decide_unpack _); vm_compute; exact I.
Qed.

Lemma clean_build_witness :
  exists w' b,
    BuildEnv.invocation (sample_ext single_parse) 2 (world_of single_disk) tmp
      [] [] "" None (Exited [failed_line "HELLO.PGM"] 2%Z)
    = Some (w', Ok b)
    ∧ disk w' ⊆ disk (world_of single_disk).
Proof.
  destruct (BuildEnv.__init__ (sample_ext single_parse) 2 (world_of single_disk)
              tmp [] [] "" None) as [[w1 [self|e]]|] eqn:E.
  - assert (Hcwd : cwd (world_of single_disk) <> []) by discriminate.
    assert (Ht : "/" ∉ ["tmp"; "tmpab12cd"])
      by (apply (bool_decide_unpack _); vm_compute; exact I).
    assert (Hd : Forall decodable [failed_line "HELLO.PGM"]).
    { constructor; [|constructor]. vm_compute. by eexists. }
    exact (clean_build (sample_ext single_parse) 2 (world_of single_disk) w1 tmp
             ["tmp"; "tmpab12cd"] [] [] "" None self
             [failed_line "HELLO.PGM"] 2%Z
             Hd eq_refl Hcwd single_disk_rooted eq_refl Ht E).
  - vm_compute in E. discriminate E.
  - vm_compute in E. discriminate E.
Defined.

(** ** The include path in the variable file *)



(** ** The include path, in general *)

(** X19.  The INCDIR value is the sentinel [*NONE] exactly when the
    include path is empty or is the single element [*NONE] in some letter
    case; every other include path, one that merely contains [*NONE]
    included, is rendered as its elements in single quotes, separated by
    spaces. *)
Theorem incdir_sentinel_iff (includePath : list string) :
  (BuildEnv.incdir includePath = "*NONE"
   <-> includePath = [] ∨ map Str.upper includePath = ["*NONE"])
  ∧ (includePath <> [] -> map Str.upper includePath <> ["*NONE"] ->
     BuildEnv.incdir includePath = "'" ++ Str.join "' '" includePath ++ "'").
Proof.
  unfold BuildEnv.incdir.
  destruct includePath as [|x l].
  - split; [|done]. split; [by left|done].
  - cbn [length Nat.eqb negb andb].
    destruct (bool_decide_reflect (map Str.upper (x :: l) = ["*NONE"])) as [E|E];
      cbn [negb].
    + split; [|done]. split; [by right|done].
    + split; [|done]. split; [discriminate|]. by intros [?|?].
Qed.

Lemma incdir_sentinel_iff_witness :
  BuildEnv.incdir ["*NONE"; "/usr/include"] = "'*NONE' '/usr/include'"
  ∧ BuildEnv.incdir ["*None"] = "*NONE".
Proof.
  split.
  - apply (proj2 (incdir_sentinel_iff ["*NONE"; "/usr/include"])); discriminate.
  - apply (proj1 (incdir_sentinel_iff ["*None"])). by right.
Defined.

(** ** One command per [make()] *)

(** X20.  Every [make()] hands exactly one command to [run_command], the
    one [generate_make_cmd] builds, whether the executor exits or raises;
    with no make options the command is the fixed part followed by the
    targets, separated by single spaces. *)
Theorem make_runs_one_command (w : World) (self : BuildEnv.t) (exec : Execution) :
  commands (BuildEnv.make w self exec).1.1
  = (commands w ++ [BuildEnv.generate_make_cmd self])%list
  ∧ (BuildEnv.make_options self = "" ->
     BuildEnv.generate_make_cmd self
     = "/QOpenSys/pkgs/bin/make -k BUILDVARSMKPATH=" ++ BuildEnv.dquote
         ++ PathLib.str (BuildEnv.build_vars_path self) ++ BuildEnv.dquote
         ++ " -k BOB=" ++ BuildEnv.dquote
         ++ PathLib.str (BuildEnv.bob_path self) ++ BuildEnv.dquote
         ++ " -f " ++ BuildEnv.dquote
         ++ PathLib.str (BuildEnv.bob_makefile self) ++ BuildEnv.dquote
         ++ " " ++ Str.join " " (BuildEnv.targets self)).
Proof.
  split.
  - destruct (make_before_run w self) as (_ & _ & H3 & _).
    unfold BuildEnv.make. fold (log_command_of w self).
    destruct exec as [lines rc|lines]; [|done].
    destruct (BuildEnv.handle_lines self lines) as [self1 [[]|e]]; cbn [fst snd];
      try done.
    unfold BuildEnv._post_make.
    destruct (unlink_all_spec (tmp_files (log_command_of w self))
                (log_command_of w self)) as (_ & _ & U3 & _).
    destruct (BuildEnv.unlink_all _ _) as [w4 [[]|e]]; cbn [fst snd] in *;
      by rewrite U3.
  - intros Hopt. unfold BuildEnv.generate_make_cmd. rewrite Hopt.
    cbn [String.eqb]. by rewrite !append_assoc.
Qed.

Lemma make_runs_one_command_witness :
  BuildEnv.generate_make_cmd sample_self
  = "/QOpenSys/pkgs/bin/make -k BUILDVARSMKPATH=" ++ BuildEnv.dquote
      ++ "/tmp/tmpab12cd" ++ BuildEnv.dquote
      ++ " -k BOB=" ++ BuildEnv.dquote ++ "/opt/bob" ++ BuildEnv.dquote
      ++ " -f " ++ BuildEnv.dquote ++ "/opt/bob/mk/Makefile" ++ BuildEnv.dquote
      ++ " all".
Proof.
  rewrite (proj2 (make_runs_one_command (world_of single_disk) sample_self
                    (Exited [] 0%Z)) eq_refl).
  vm_compute. reflexivity.
Defined.
